(** * claude-artifact-exporter: a shallow embedding of [background.js]

    The service worker of the extension exports every artifact found in a
    user's conversations into one ZIP archive.  This file embeds the pure
    part of [background.js] (tag extraction, extension lookup, file-name
    allocation, per-conversation processing) as Rocq functions and the
    export handler as a function from the answers of its collaborators
    (network, archive library, download API) to the response and the trace
    of observable events.

    Conventions.
    - A JavaScript string is a [string]; one [ascii] stands for one code
      unit below 256 (the Latin-1 range), which covers every character the
      program itself inspects.
    - A [Set] of strings is a [gset string].
    - The regular expressions of the source are terms of a small regex type
      interpreted by a backtracking matcher with JavaScript's priorities
      (leftmost match, greedy or lazy repetition).
    - Loops whose termination is not structural take a bound; the bound is
      proved sufficient below. *)

From Stdlib Require Import String Ascii List Lia Arith NArith.
From Stdlib Require Import ZArith Strings.Byte.
From stdpp Require Import base decidable option list gmap strings pretty.


(** ** JavaScript strings *)

Module JS.

(** Code unit of a character. *)
Definition code (c : ascii) : nat := nat_of_ascii c.

Definition between (lo hi : nat) (c : ascii) : bool :=
  (lo <=? code c)%nat && (code c <=? hi)%nat.

Definition is_upper (c : ascii) : bool := between 65 90 c.
Definition is_lower (c : ascii) : bool := between 97 122 c.
Definition is_digit (c : ascii) : bool := between 48 57 c.

(** [\w] without the unicode flag: [A-Za-z0-9_]. *)
Definition is_word (c : ascii) : bool :=
  is_upper c || is_lower c || is_digit c || Ascii.eqb c "_".

(** White space and line terminators removed by [String.prototype.trim],
    in the Latin-1 range: TAB, LF, VT, FF, CR, SPACE and NBSP. *)
Definition is_white (c : ascii) : bool :=
  between 9 13 c || (code c =? 32)%nat || (code c =? 160)%nat.

(** [String.prototype.toLowerCase] on one code unit: A-Z, and the
    Latin-1 capitals U+00C0..U+00DE except the multiplication sign. *)
Definition lower_char (c : ascii) : ascii :=
  if is_upper c then ascii_of_nat (code c + 32)
  else if between 192 222 c && negb (code c =? 215)%nat
       then ascii_of_nat (code c + 32)
       else c.

Fixpoint toLowerCase (s : string) : string :=
  match s with
  | EmptyString => EmptyString
  | String c s' => String (lower_char c) (toLowerCase s')
  end.

Fixpoint trimStart (s : string) : string :=
  match s with
  | EmptyString => EmptyString
  | String c s' => if is_white c then trimStart s' else s
  end.

Fixpoint trimEnd (s : string) : string :=
  match s with
  | EmptyString => EmptyString
  | String c s' =>
      match trimEnd s' with
      | EmptyString => if is_white c then EmptyString else String c EmptyString
      | t => String c t
      end
  end.

(** [s.trim()] *)
Definition trim (s : string) : string := trimEnd (trimStart s).

(** [s.substring(n)] and [s.substring(0, n)]. *)
Fixpoint drop (n : nat) (s : string) : string :=
  match n, s with
  | S n', String _ s' => drop n' s'
  | _, _ => s
  end.

Fixpoint take (n : nat) (s : string) : string :=
  match n, s with
  | S n', String c s' => String c (take n' s')
  | _, _ => EmptyString
  end.

(** [s.startsWith(p)], returning what follows the prefix. *)
Fixpoint strip_prefix (p s : string) : option string :=
  match p, s with
  | EmptyString, _ => Some s
  | String a p', String b s' =>
      if Ascii.eqb a b then strip_prefix p' s' else None
  | String _ _, EmptyString => None
  end.

(** [s.split(sep)] for a one-character separator: never empty. *)
Fixpoint split (sep : ascii) (s : string) : list string :=
  match s with
  | EmptyString => [EmptyString]
  | String c s' =>
      if Ascii.eqb c sep then EmptyString :: split sep s'
      else match split sep s' with
           | p :: ps => String c p :: ps
           | [] => [String c EmptyString]
           end
  end.

(** [parts.join(sep)] *)
Fixpoint join (sep : string) (parts : list string) : string :=
  match parts with
  | [] => EmptyString
  | [p] => p
  | p :: ps => p +:+ sep +:+ join sep ps
  end.

(** [parts.pop()]: the array without its last element, and that element
    ([None] stands for [undefined] on an empty array). *)
Fixpoint pop (parts : list string) : list string * option string :=
  match parts with
  | [] => ([], None)
  | [p] => ([], Some p)
  | p :: ps => let '(init, lst) := pop ps in (p :: init, lst)
  end.

End JS.

(** ** Regular expressions

    The fragment used by [background.js]: literals, repetition of a
    character class (greedy [*], lazy [*?], greedy [+]), one level of
    capturing groups and concatenation.  The matcher is the usual
    backtracking one in continuation-passing style: a repetition tries its
    preferred number of iterations first and falls back when the rest of
    the pattern fails. *)

Module Regex.

Inductive regex : Type :=
| Lit (p : string)
| Star (greedy : bool) (cls : ascii → bool)
| Plus (cls : ascii → bool)
| Group (r : regex)
| Seq (r1 r2 : regex).

(** Offsets, from the start of the match, of the captured groups. *)
Definition captures : Type := list (nat * nat).

Section Matcher.
Context {R : Type}.

Fixpoint star_greedy (cls : ascii → bool) (k : nat → string → option R)
    (n : nat) (s : string) : option R :=
  match s with
  | String c s' =>
      if cls c then
        match star_greedy cls k (S n) s' with
        | Some r => Some r
        | None => k n s
        end
      else k n s
  | EmptyString => k n s
  end.

Fixpoint star_lazy (cls : ascii → bool) (k : nat → string → option R)
    (n : nat) (s : string) : option R :=
  match k n s with
  | Some r => Some r
  | None =>
      match s with
      | String c s' => if cls c then star_lazy cls k (S n) s' else None
      | EmptyString => None
      end
  end.

Fixpoint rmatch (r : regex) (k : nat → string → captures → option R)
    (n : nat) (s : string) (caps : captures) : option R :=
  match r with
  | Lit p =>
      match JS.strip_prefix p s with
      | Some s' => k (n + String.length p) s' caps
      | None => None
      end
  | Star true cls => star_greedy cls (λ n' s', k n' s' caps) n s
  | Star false cls => star_lazy cls (λ n' s', k n' s' caps) n s
  | Plus cls =>
      match s with
      | String c s' =>
          if cls c then star_greedy cls (λ n' s', k n' s' caps) (S n) s'
          else None
      | EmptyString => None
      end
  | Group r' => rmatch r' (λ n' s' caps', k n' s' (caps' ++ [(n, n')])) n s caps
  | Seq r1 r2 => rmatch r1 (rmatch r2 k) n s caps
  end.
End Matcher.

(** A match anchored at the start of [s]: its length and its groups. *)
Definition match_at (r : regex) (s : string) : option (nat * captures) :=
  rmatch r (λ n _ caps, Some (n, caps)) 0 s [].

(** The match object: [index], [m[0]], [m[1..]] and the end of the match
    (the next [lastIndex] of a global regex). *)
Record rmatch_result : Type := MatchResult {
  index : nat;
  whole : string;
  groups : list string;
  stop : nat;
}.

Definition result_at (i : nat) (s : string) (m : nat * captures) : rmatch_result :=
  {| index := i;
     whole := JS.take (fst m) s;
     groups := map (λ g, JS.take (snd g - fst g) (JS.drop (fst g) s)) (snd m);
     stop := i + fst m |}.

(** Leftmost match in [s], whose first character has position [i] in the
    subject. *)
Fixpoint search_from (r : regex) (i : nat) (s : string) : option rmatch_result :=
  match match_at r s with
  | Some m => Some (result_at i s m)
  | None =>
      match s with
      | String _ s' => search_from r (S i) s'
      | EmptyString => None
      end
  end.

(** [r.exec(text)] for a global regex whose [lastIndex] is [lastIndex]. *)
Definition exec (r : regex) (text : string) (lastIndex : nat) : option rmatch_result :=
  if (lastIndex <=? String.length text)%nat
  then search_from r lastIndex (JS.drop lastIndex text)
  else None.

(** [text.match(r)] for a regex without the global flag. *)
Definition match_ (r : regex) (text : string) : option rmatch_result :=
  search_from r 0 text.

(** [m[i]] *)
Definition group (m : rmatch_result) (i : nat) : string :=
  match i with
  | 0 => whole m
  | S j => default EmptyString (groups m !! j)
  end.

(** [text.replace(r, repl)] for a global regex and a replacement text
    without [$] patterns; [bound] limits the number of matches replaced.
    After an empty match the scan resumes one character further. *)
Fixpoint replace_loop (bound : nat) (r : regex) (repl text : string) : string :=
  match bound with
  | 0 => text
  | S bound' =>
      match search_from r 0 text with
      | None => text
      | Some m =>
          let rest := JS.drop (stop m) text in
          JS.take (index m) text +:+ repl +:+
          (if (stop m =? index m)%nat then
             match rest with
             | String c rest' => String c (replace_loop bound' r repl rest')
             | EmptyString => EmptyString
             end
           else replace_loop bound' r repl rest)
      end
  end.

Definition replace (r : regex) (repl text : string) : string :=
  replace_loop (S (String.length text)) r repl text.

End Regex.

Import Regex.

(** ** [extractArtifacts] *)

Record artifact : Type := Artifact {
  title : string;
  language : string;
  content : string;
}.

Definition any_char (_ : ascii) : bool := true.
Definition not_char (x : ascii) (c : ascii) : bool := negb (Ascii.eqb c x).

Definition open_tag : string := "<antArtifact".
Definition close_tag : string := "</antArtifact>".

(** [/<antArtifact[^>]*>([\s\S]*?)<\/antArtifact>/g] *)
Definition artifactRegex : regex :=
  Seq (Lit open_tag)
 (Seq (Star true (not_char ">"))
 (Seq (Lit ">")
 (Seq (Group (Star false any_char))
      (Lit close_tag)))).

(** The attribute patterns: the attribute name, an equals sign, a double
    quote (character 34) and a captured greedy run of characters other
    than the double quote; the closing quote is not part of the pattern. *)
Definition dquote : ascii := ascii_of_nat 34.

Definition attributeRegex (name : string) : regex :=
  Seq (Lit (name +:+ "=" +:+ String dquote EmptyString))
      (Group (Star true (not_char dquote))).

Definition titleRegex : regex := attributeRegex "title".
Definition languageRegex : regex := attributeRegex "language".

(** [m ? m[1] : fallback] *)
Definition attribute (r : regex) (fallback fullTag : string) : string :=
  match match_ r fullTag with
  | Some m => group m 1
  | None => fallback
  end.

Definition artifact_of_match (m : rmatch_result) : artifact :=
  let fullTag := group m 0 in
  let content := group m 1 in
  {| title := attribute titleRegex "Untitled" fullTag;
     language := attribute languageRegex "txt" fullTag;
     content := JS.trim content |}.

(** The [while ((match = artifactRegex.exec(text)) !== null)] loop;
    [lastIndex] is the scan position kept by the regex object. *)
Fixpoint extract_loop (bound : nat) (text : string) (lastIndex : nat) : list artifact :=
  match bound with
  | 0 => []
  | S bound' =>
      match exec artifactRegex text lastIndex with
      | None => []
      | Some m => artifact_of_match m :: extract_loop bound' text (stop m)
      end
  end.

Definition extractArtifacts (text : string) : list artifact :=
  extract_loop (S (String.length text)) text 0.

(** ** [getFileExtension] *)

Definition languageToExt : list (string * string) :=
  [ ("javascript", ".js"); ("html", ".html"); ("css", ".css");
    ("python", ".py"); ("java", ".java"); ("c", ".c"); ("cpp", ".cpp");
    ("ruby", ".rb"); ("php", ".php"); ("swift", ".swift"); ("go", ".go");
    ("rust", ".rs"); ("typescript", ".ts"); ("shell", ".sh");
    ("sql", ".sql"); ("kotlin", ".kt"); ("scala", ".scala"); ("r", ".r");
    ("matlab", ".m"); ("json", ".json"); ("xml", ".xml");
    ("yaml", ".yaml"); ("markdown", ".md"); ("text", ".txt") ].

(** The table is an object literal, so a lookup that misses the own
    properties continues in [Object.prototype].  After [toLowerCase] only
    two inherited names can be hit, and both values are truthy: the
    [Object] constructor and the prototype object.  The caller only
    interpolates the extension into a template literal, so they are given
    here as the text that interpolation produces. *)
Definition inherited : list (string * string) :=
  [ ("constructor", "function Object() { [native code] }");
    ("__proto__", "[object Object]") ].

Fixpoint property (key : string) (obj : list (string * string)) : option string :=
  match obj with
  | [] => None
  | (k, v) :: obj' => if String.eqb key k then Some v else property key obj'
  end.

Definition getFileExtension (language : string) : string :=
  default ".txt" (property (JS.toLowerCase language) (languageToExt ++ inherited)).

(** ** [getUniqueFileName] *)

(** The characters that the title pattern and the folder pattern leave in
    place: word characters, hyphen, dot, underscore and, in a title, the
    slash. *)
Definition title_char (c : ascii) : bool :=
  JS.is_word c || Ascii.eqb c "-" || Ascii.eqb c "." || Ascii.eqb c "_"
  || Ascii.eqb c "/".

Definition folder_char (c : ascii) : bool :=
  JS.is_word c || Ascii.eqb c "-" || Ascii.eqb c "." || Ascii.eqb c "_".

Definition unsafeTitleRun : regex := Plus (λ c, negb (title_char c)).
Definition unsafeFolderRun : regex := Plus (λ c, negb (folder_char c)).

(** [title.replace(/[^\w\-._\/]+/g, '_')] *)
Definition sanitizeTitle (title : string) : string :=
  Regex.replace unsafeTitleRun "_" title.

(** Interpolation of a value that may be [undefined]. *)
Definition interpolate (v : option string) : string := default "undefined" v.

(** The numbered candidate: base name, underscore, counter, extension.
    The counter is a natural number printed in decimal, as JavaScript
    prints the integers the loop can reach. *)
Definition numbered (baseName : string) (counter : N) (extension : string) : string :=
  baseName +:+ "_" +:+ pretty counter +:+ extension.

(** The [while (usedNames.has(fileName))] loop; [bound] limits the number
    of candidates tried after the first. *)
Fixpoint probe (bound : nat) (usedNames : gset string)
    (baseName extension fileName : string) (counter : N) : string :=
  if bool_decide (fileName ∈ usedNames) then
    match bound with
    | 0 => fileName
    | S bound' =>
        probe bound' usedNames baseName extension
          (numbered baseName counter extension) (counter + 1)%N
    end
  else fileName.

Definition basePath (title conversationFolder : string) : string :=
  let baseName := sanitizeTitle title in
  let parts := JS.split "/" baseName in
  if (1 <? length parts)%nat then
    let '(parts, fileName) := JS.pop parts in
    let subDir := JS.join "/" parts in
    conversationFolder +:+ "/" +:+ subDir +:+ "/" +:+ interpolate fileName
  else conversationFolder +:+ "/" +:+ baseName.

(** Returns the file name and the set after [usedNames.add(fileName)]. *)
Definition getUniqueFileName (title language : string) (usedNames : gset string)
    (conversationFolder : string) : string * gset string :=
  let baseName := basePath title conversationFolder in
  let extension := getFileExtension language in
  let fileName :=
    probe (size usedNames) usedNames baseName extension
      (baseName +:+ extension) 1%N in
  (fileName, {[ fileName ]} ∪ usedNames).

(** ** [processConversation] *)

(** The JSON values the function inspects.  [message.content] is absent or
    falsy, a string, an array of content blocks, or some other truthy
    value; a block or a message may be [null], on which a property access
    throws. *)
Record block : Type := Block {
  block_text : option string;
}.

Inductive content_field : Type :=
| ContentAbsent
| ContentString (s : string)
| ContentBlocks (blocks : list (option block))
| ContentOther.

Module Message.
Record t : Type := Make {
  sender : string;
  content : content_field;
  text : option string;
}.
End Message.

Inductive messages_field : Type :=
| MessagesAbsent
| MessagesArray (messages : list (option Message.t))
| MessagesNotIterable.

Module Conversation.
Record t : Type := Make {
  name : option string;
  chat_messages : messages_field;
}.
End Conversation.

(** The two mutable objects shared by all calls of one export: the
    archive, as the sequence of [zip.file(name, content)] calls, and the set
    of names already handed out. *)
Record store : Type := Store {
  zip : list (string * string);
  usedNames : gset string;
}.

Inductive outcome (A : Type) : Type :=
| Returned (a : A)
| Thrown (error : string).
Arguments Returned {A} a.
Arguments Thrown {A} error.

(** Computations that read and update the store and may throw; an update
    made before a throw stays. *)
Definition M (A : Type) : Type := store → outcome A * store.

Definition ret {A} (a : A) : M A := λ st, (Returned a, st).
Definition throw {A} (error : string) : M A := λ st, (Thrown error, st).
Definition bind {A B} (m : M A) (f : A → M B) : M B :=
  λ st, match m st with
        | (Returned a, st') => f a st'
        | (Thrown e, st') => (Thrown e, st')
        end.

Notation "'let*' x ':=' m 'in' f" := (bind m (λ x, f))
  (at level 10, x binder, m at level 100, f at level 200).

(** [for (const x of xs) { acc = body(acc, x) }] *)
Fixpoint for_of {A B} (xs : list A) (body : B → A → M B) (acc : B) : M B :=
  match xs with
  | [] => ret acc
  | x :: xs' => let* acc' := body acc x in for_of xs' body acc'
  end.

(** Truthiness of a string, and of an optional string property. *)
Definition truthy (s : string) : bool := negb (String.eqb s EmptyString).

Definition or_else (v : option string) (fallback : string) : string :=
  match v with
  | Some s => if truthy s then s else fallback
  | None => fallback
  end.

(** The messages of the two [TypeError]s that the processing can meet:
    reading a property of [null], and iterating a value that is no
    iterable. *)
Definition null_property_error (property : string) : string :=
  "Cannot read properties of null (reading '" +:+ property +:+ "')".

Definition not_iterable_error (expression : string) : string :=
  expression +:+ " is not iterable".

Definition allocate (title language conversationFolder : string) : M string :=
  λ st, let '(fileName, used) :=
          getUniqueFileName title language (usedNames st) conversationFolder in
        (Returned fileName, {| zip := zip st; usedNames := used |}).

Definition zip_file (fileName content : string) : M unit :=
  λ st, (Returned tt,
         {| zip := zip st ++ [(fileName, content)]; usedNames := usedNames st |}).

(** The text of one message whose [content] is truthy. *)
Definition messageText (message : Message.t) : M string :=
  match Message.content message with
  | ContentBlocks blocks =>
      for_of blocks
        (λ messageText content,
           match content with
           | None => throw (null_property_error "text")
           | Some b =>
               match block_text b with
               | Some t => if truthy t then ret (messageText +:+ t)
                           else ret messageText
               | None => ret messageText
               end
           end)
        EmptyString
  | ContentString s => ret s
  | _ => ret (or_else (Message.text message) EmptyString)
  end.

Definition content_truthy (c : content_field) : bool :=
  match c with
  | ContentAbsent => false
  | ContentString s => truthy s
  | ContentBlocks _ => true
  | ContentOther => true
  end.

Definition processMessage (conversationName : string) (artifactCount : nat)
    (message : option Message.t) : M nat :=
  match message with
  | None => throw (null_property_error "sender")
  | Some message =>
      if String.eqb (Message.sender message) "assistant"
         && content_truthy (Message.content message) then
        let* messageText := messageText message in
        if truthy messageText then
          for_of (extractArtifacts messageText)
            (λ artifactCount artifact,
               let* fileName := allocate (title artifact) (language artifact)
                                         conversationName in
               let* _ := zip_file fileName (content artifact) in
               ret (S artifactCount))
            artifactCount
        else ret artifactCount
      else ret artifactCount
  end.

Definition processConversation (conversation : Conversation.t) : M nat :=
  match Conversation.chat_messages conversation with
  | MessagesAbsent => ret 0
  | MessagesNotIterable => throw (not_iterable_error "conversation.chat_messages")
  | MessagesArray messages =>
      let conversationName :=
        Regex.replace unsafeFolderRun "_"
          (or_else (Conversation.name conversation) "Untitled") in
      for_of messages (processMessage conversationName) 0
  end.

(** ** The export handler

    The handler talks to three collaborators: the remote service, the
    archive library and the download API.  Their answers are the input of
    the model; what the handler asks of them, the progress messages it
    sends and the failures it logs form the trace. *)

Inductive answer (A : Type) : Type :=
| Failed (message : string)
| Answered (a : A).
Arguments Failed {A} message.
Arguments Answered {A} a.

Module Summary.
Record t : Type := Make {
  uuid : string;
  name : option string;
}.
End Summary.

(** An entry of the index together with what [fetchConversation] will
    answer for it. *)
Definition entry : Type := Summary.t * answer Conversation.t.

(** The index is an array of JSON values: an element is an entry or
    [null], written [None]. *)
Record environment : Type := Environment {
  index_answer : answer (list (option entry));
  generate_answer : answer unit;
  download_ok : bool;
  today : string;
}.

Inductive event : Type :=
| FetchIndex
| Progress (current total : nat) (conversationName : string)
| FetchConversation (uuid : string)
| Pause (ms : nat)
| LogFailure (uuid : string) (error : string)
| GenerateZip (files : list (string * string))
| Download (filename : string).

Inductive response : Type :=
| ExportSucceeded (artifactCount conversationCount totalConversations : nat)
| ExportFailed (error : string).

Definition success (r : response) : bool :=
  match r with
  | ExportSucceeded _ _ _ => true
  | ExportFailed _ => false
  end.

(** The variables of the handler that the loop updates. *)
Record job : Type := Job {
  job_store : store;
  totalArtifacts : nat;
  conversationsWithArtifacts : nat;
  processedCount : nat;
}.

Definition new_job : job :=
  {| job_store := {| zip := []; usedNames := ∅ |};
     totalArtifacts := 0;
     conversationsWithArtifacts := 0;
     processedCount := 0 |}.

(** One iteration of [for (const conv of conversations)] on an entry that
    is not [null]: the body of the [try] up to the first throw, then the
    [catch], which logs the identifier and the error. *)
Definition export_entry (total : nat) (j : job) (e : entry) : job * list event :=
  let conv := fst e in
  let processedCount := S (processedCount j) in
  let started :=
    [ Progress processedCount total (or_else (Summary.name conv) "Untitled");
      FetchConversation (Summary.uuid conv) ] in
  match snd e with
  | Failed error =>
      ({| job_store := job_store j;
          totalArtifacts := totalArtifacts j;
          conversationsWithArtifacts := conversationsWithArtifacts j;
          processedCount := processedCount |},
       started ++ [LogFailure (Summary.uuid conv) error])
  | Answered fullConv =>
      match processConversation fullConv (job_store j) with
      | (Returned artifactCount, st) =>
          (if (0 <? artifactCount)%nat then
             {| job_store := st;
                totalArtifacts := totalArtifacts j + artifactCount;
                conversationsWithArtifacts := S (conversationsWithArtifacts j);
                processedCount := processedCount |}
           else
             {| job_store := st;
                totalArtifacts := totalArtifacts j;
                conversationsWithArtifacts := conversationsWithArtifacts j;
                processedCount := processedCount |},
           started ++ [Pause 500])
      | (Thrown error, st) =>
          ({| job_store := st;
              totalArtifacts := totalArtifacts j;
              conversationsWithArtifacts := conversationsWithArtifacts j;
              processedCount := processedCount |},
           started ++ [LogFailure (Summary.uuid conv) error])
      end
  end.

(** One iteration on any element of the index, with the error that leaves
    the loop, if any.  On [null] the counter is incremented, then
    [conv.name] throws in the [try] before the progress message is sent,
    and [conv.uuid] throws in the [catch] before anything is logged: this
    second error is not caught by the loop. *)
Definition export_iteration (total : nat) (j : job) (conv : option entry)
    : job * list event * option string :=
  match conv with
  | Some e => (export_entry total j e, None)
  | None =>
      ({| job_store := job_store j;
          totalArtifacts := totalArtifacts j;
          conversationsWithArtifacts := conversationsWithArtifacts j;
          processedCount := S (processedCount j) |},
       [], Some (null_property_error "uuid"))
  end.

(** The loop: it ends after the last element, or at the first iteration
    whose error is not caught. *)
Fixpoint export_loop (total : nat) (j : job) (conversations : list (option entry))
    : job * list event * option string :=
  match conversations with
  | [] => (j, [], None)
  | conv :: rest =>
      match export_iteration total j conv with
      | (j', events, Some error) => (j', events, Some error)
      | (j', events, None) =>
          let '(j'', events', thrown) := export_loop total j' rest in
          (j'', events ++ events', thrown)
      end
  end.

Definition no_artifacts_error : string := "No artifacts found in any conversations".
Definition download_error : string := "Failed to download ZIP file".

(** The body of the [async] function started for an [exportArtifacts]
    request.  An error that leaves the loop reaches the outer [catch],
    which answers with its message, as it does for an error of the index
    request or of the generation of the archive. *)
Definition exportArtifacts (env : environment) : response * list event :=
  match index_answer env with
  | Failed message => (ExportFailed message, [FetchIndex])
  | Answered conversations =>
      match export_loop (length conversations) new_job conversations with
      | (_, events, Some message) => (ExportFailed message, FetchIndex :: events)
      | (j, events, None) =>
          if (totalArtifacts j =? 0)%nat then
            (ExportFailed no_artifacts_error, FetchIndex :: events)
          else
            let generate := GenerateZip (zip (job_store j)) in
            match generate_answer env with
            | Failed message =>
                (ExportFailed message, FetchIndex :: events ++ [generate])
            | Answered _ =>
                let filename := "claude-artifacts-" +:+ today env +:+ ".zip" in
                (if download_ok env then
                   ExportSucceeded (totalArtifacts j) (conversationsWithArtifacts j)
                     (length conversations)
                 else ExportFailed download_error,
                 FetchIndex :: events ++ [generate; Download filename])
            end
      end
  end.

(** The listener: only [exportArtifacts] requests start an export. *)
Definition onMessage (action : string) (env : environment)
    : option (response * list event) :=
  if String.eqb action "exportArtifacts" then Some (exportArtifacts env)
  else None.

(** ** Vocabulary of the statements *)

(** [pat] occurs somewhere in [s]. *)
Definition occurs (pat s : string) : Prop := ∃ u v, s = u +:+ pat +:+ v.

(** [s.includes(pat)]: the same, as a test. *)
Fixpoint includes (pat s : string) : bool :=
  match JS.strip_prefix pat s with
  | Some _ => true
  | None =>
      match s with
      | EmptyString => false
      | String _ s' => includes pat s'
      end
  end.

(** An attribute as it is written in a tag: [name], an equals sign and
    the value between double quotes. *)
Definition attribute_start (name : string) : string :=
  name +:+ "=" +:+ String dquote EmptyString.

Definition attribute_text (name value : string) : string :=
  attribute_start name +:+ value +:+ String dquote EmptyString.

Fixpoint char_in (c : ascii) (s : string) : bool :=
  match s with
  | EmptyString => false
  | String d s' => Ascii.eqb d c || char_in c s'
  end.

Fixpoint all_chars (p : ascii → bool) (s : string) : bool :=
  match s with
  | EmptyString => true
  | String c s' => p c && all_chars p s'
  end.

(** [s] begins with a character of the class [p]. *)
Definition begins_with (p : ascii → bool) (s : string) : bool :=
  match s with
  | EmptyString => false
  | String c _ => p c
  end.

(** The longest prefix of [s] made of characters of [p], and what follows. *)
Fixpoint span (p : ascii → bool) (s : string) : string * string :=
  match s with
  | EmptyString => (EmptyString, EmptyString)
  | String c s' =>
      if p c then let '(run, rest) := span p s' in (String c run, rest)
      else (EmptyString, s)
  end.

(** The text before and after the first occurrence of a character and of
    a pattern. *)
Fixpoint split_at (x : ascii) (s : string) : option (string * string) :=
  match s with
  | EmptyString => None
  | String c s' =>
      if Ascii.eqb c x then Some (EmptyString, s')
      else match split_at x s' with
           | Some (before, after) => Some (String c before, after)
           | None => None
           end
  end.

Fixpoint find_sub (pat s : string) : option (string * string) :=
  match JS.strip_prefix pat s with
  | Some after => Some (EmptyString, after)
  | None =>
      match s with
      | EmptyString => None
      | String c s' =>
          match find_sub pat s' with
          | Some (before, after) => Some (String c before, after)
          | None => None
          end
      end
  end.

(** [pat] starts nowhere in [pre]: in [pre +:+ pat] its first occurrence
    is the one at the end. *)
Definition first_after (pat pre : string) : Prop :=
  find_sub pat (pre +:+ pat) = Some (pre, EmptyString).

(** Sanitization as a scan: a character of the class is kept, and a run
    of other characters gives one underscore, written when the run starts. *)
Fixpoint collapse (keep : ascii → bool) (in_run : bool) (s : string) : string :=
  match s with
  | EmptyString => EmptyString
  | String c s' =>
      if keep c then String c (collapse keep false s')
      else if in_run then collapse keep true s'
           else String "_" (collapse keep true s')
  end.

(** Sanitization as the specification words it: each character outside the
    class is replaced by an underscore. *)
Fixpoint replace_each (keep : ascii → bool) (s : string) : string :=
  match s with
  | EmptyString => EmptyString
  | String c s' => String (if keep c then c else "_"%char) (replace_each keep s')
  end.

(** A sequence of calls of [getUniqueFileName] on one set: each call is a
    title, a language and a folder. *)
Fixpoint allocations (calls : list (string * string * string))
    (usedNames : gset string) : list string * gset string :=
  match calls with
  | [] => ([], usedNames)
  | (title, language, folder) :: calls' =>
      let '(fileName, used) := getUniqueFileName title language usedNames folder in
      let '(fileNames, used') := allocations calls' used in
      (fileName :: fileNames, used')
  end.

(** What the loop announces and asks for one entry of the index, when it
    is the [k]-th of [total] (counting from 0). *)
Definition announced (total k : nat) (e : entry) : event :=
  Progress (S k) total (or_else (Summary.name (fst e)) "Untitled").

Definition requested (e : entry) : event := FetchConversation (Summary.uuid (fst e)).

(** The variables of the handler after an iteration that ended in the
    [catch] and left the store [st]: only the counter of iterations
    moved. *)
Definition skipped (j : job) (st : store) : job :=
  {| job_store := st;
     totalArtifacts := totalArtifacts j;
     conversationsWithArtifacts := conversationsWithArtifacts j;
     processedCount := S (processedCount j) |}.

(** Sample data: a text with one artifact, conversations with one
    assistant message, the empty store and environments whose archive and
    download steps succeed, on an index without [null] and on any index. *)
Definition tagged_text : string :=
  "<antArtifact " +:+ attribute_text "title" "a" +:+ " "
    +:+ attribute_text "language" "python" +:+ ">print(1)</antArtifact>".

Definition conversation_of (m : Message.t) : Conversation.t :=
  {| Conversation.name := Some "Chat";
     Conversation.chat_messages := MessagesArray [Some m] |}.

Definition assistant (c : content_field) (t : option string) : Message.t :=
  {| Message.sender := "assistant"; Message.content := c; Message.text := t |}.

Definition empty_store : store := {| zip := []; usedNames := ∅ |}.

(** Two states of the handler with the same archive, set of names and
    counters of artifacts; they may differ in the counter of iterations. *)
Definition alike (j1 j2 : job) : Prop :=
  job_store j1 = job_store j2 ∧
  totalArtifacts j1 = totalArtifacts j2 ∧
  conversationsWithArtifacts j1 = conversationsWithArtifacts j2.

(** The answer of an export whose index has one conversation more. *)
Definition one_more_conversation (r : response) : response :=
  match r with
  | ExportSucceeded artifactCount conversationCount totalConversations =>
      ExportSucceeded artifactCount conversationCount (S totalConversations)
  | ExportFailed error => ExportFailed error
  end.

Definition environment_on (index : list (option entry)) : environment :=
  {| index_answer := Answered index;
     generate_answer := Answered tt;
     download_ok := true;
     today := "2024-01-01" |}.

Definition environment_of (conversations : list entry) : environment :=
  environment_on (Some <$> conversations).

Definition is_progress (e : event) : bool :=
  match e with Progress _ _ _ => true | _ => false end.

Definition is_request (e : event) : bool :=
  match e with Progress _ _ _ | FetchConversation _ => true | _ => false end.

Definition is_finalization (e : event) : bool :=
  match e with GenerateZip _ | Download _ => true | _ => false end.

(** ** Vocabulary of the further properties *)

(** [s] ends with a white-space character. *)
Fixpoint ends_white (s : string) : bool :=
  match s with
  | EmptyString => false
  | String c EmptyString => JS.is_white c
  | String _ s' => ends_white s'
  end.

(** The match object of a match found [k] characters further in a longer
    subject. *)
Definition shifted (k : nat) (m : rmatch_result) : rmatch_result :=
  {| index := k + index m; whole := whole m; groups := groups m;
     stop := k + stop m |}.

(** The folder of a conversation, as [processConversation] computes it
    from the name. *)
Definition conversationFolderOf (name : option string) : string :=
  Regex.replace unsafeFolderRun "_" (or_else name "Untitled").

(** The archive and the set of names agree: the names of the archive are
    pairwise distinct and all of them are in the set. *)
Definition consistent (st : store) : Prop :=
  NoDup (fst <$> zip st) ∧ ∀ n, n ∈ (fst <$> zip st) → n ∈ usedNames st.

(** From [st] to [st'] the set of names only grew and the archive got [k]
    more files, after those it had, under pairwise distinct names that
    were not in the set and now are; agreement of archive and set is
    kept. *)
Definition extends (st st' : store) (k : nat) : Prop :=
  (consistent st → consistent st') ∧
  usedNames st ⊆ usedNames st' ∧
  ∃ new, zip st' = zip st ++ new ∧ length new = k ∧
         NoDup (fst <$> new) ∧
         ∀ n, n ∈ (fst <$> new) → (n ∉ usedNames st) ∧ n ∈ usedNames st'.

(** A computation that writes files only below [folder]. *)
Definition writes_below {A} (folder : string) (m : M A) : Prop :=
  ∀ st, ∃ new,
    zip (snd (m st)) = zip st ++ new ∧
    ∀ n, n ∈ (fst <$> new) → ∃ rest, n = folder +:+ "/" +:+ rest.

Definition is_assistant (m : Message.t) : bool :=
  String.eqb (Message.sender m) "assistant".

(** What a computation that counts may do to the store: when it returns,
    the count went up by the number of files written; when it throws, the
    files written before stay. *)
Definition counts (acc : nat) (m : M nat) : Prop :=
  ∀ st,
    match m st with
    | (Returned n, st') => acc ≤ n ∧ extends st st' (n - acc)
    | (Thrown _, st') => ∃ k, extends st st' k
    end.

(** The variables of the handler fit the archive: no more artifacts
    counted than files written, no more conversations with artifacts than
    artifacts or than conversations seen. *)
Definition job_ok (j : job) : Prop :=
  consistent (job_store j) ∧
  totalArtifacts j ≤ length (zip (job_store j)) ∧
  conversationsWithArtifacts j ≤ totalArtifacts j ∧
  conversationsWithArtifacts j ≤ processedCount j ∧
  (0 < totalArtifacts j → 0 < conversationsWithArtifacts j).

(** ** [arrayBufferToBase64] *)

Definition base64_alphabet : string :=
  "ABCDEFGHIJKLMNOPQRSTUVWXYZabcdefghijklmnopqrstuvwxyz0123456789+/".

(** The character of a six-bit value. *)
Definition base64_digit (v : N) : ascii :=
  default "="%char (String.get (N.to_nat v) base64_alphabet).

(** [btoa(binary)] on a string of code units below 256: three characters
    give four digits, and a rest of one or two characters is padded with
    equals signs. *)
Fixpoint btoa (binary : string) : string :=
  match binary with
  | EmptyString => EmptyString
  | String a EmptyString =>
      let a := N_of_ascii a in
      String (base64_digit (a / 4))
     (String (base64_digit (a mod 4 * 16)) "==")
  | String a (String b EmptyString) =>
      let a := N_of_ascii a in
      let b := N_of_ascii b in
      String (base64_digit (a / 4))
     (String (base64_digit (a mod 4 * 16 + b / 16))
     (String (base64_digit (b mod 16 * 4)) "="))
  | String a (String b (String c rest)) =>
      let a := N_of_ascii a in
      let b := N_of_ascii b in
      let c := N_of_ascii c in
      String (base64_digit (a / 4))
     (String (base64_digit (a mod 4 * 16 + b / 16))
     (String (base64_digit (b mod 16 * 4 + c / 64))
     (String (base64_digit (c mod 64)) (btoa rest))))
  end.

(** The bytes of the buffer are the elements of a [Uint8Array]; the loop
    appends [String.fromCharCode(bytes[i])] for each of them. *)
Definition arrayBufferToBase64 (bytes : list byte) : string :=
  let binary :=
    fold_left (λ binary b, binary +:+ String (ascii_of_byte b) EmptyString)
      bytes EmptyString in
  btoa binary.

(** Reading base64 back, to state that nothing is lost: the value of a
    digit, and the text of four digits at a time. *)
Fixpoint base64_value_from (v : N) (alphabet : string) (c : ascii) : option N :=
  match alphabet with
  | EmptyString => None
  | String d alphabet' =>
      if Ascii.eqb c d then Some v else base64_value_from (v + 1) alphabet' c
  end.

Definition base64_value (c : ascii) : option N :=
  base64_value_from 0 base64_alphabet c.

Fixpoint atob (encoded : string) : option string :=
  match encoded with
  | EmptyString => Some EmptyString
  | String c1 (String c2 (String c3 (String c4 rest))) =>
      match base64_value c1, base64_value c2 with
      | Some v1, Some v2 =>
          let a := ascii_of_N (v1 * 4 + v2 / 16) in
          if Ascii.eqb c3 "=" then
            if Ascii.eqb c4 "=" && String.eqb rest EmptyString
            then Some (String a EmptyString) else None
          else
            match base64_value c3 with
            | Some v3 =>
                let b := ascii_of_N (v2 mod 16 * 16 + v3 / 4) in
                if Ascii.eqb c4 "=" then
                  if String.eqb rest EmptyString
                  then Some (String a (String b EmptyString)) else None
                else
                  match base64_value c4, atob rest with
                  | Some v4, Some s =>
                      Some (String a (String b
                             (String (ascii_of_N (v3 mod 4 * 64 + v4)) s)))
                  | _, _ => None
                  end
            | None => None
            end
      | _, _ => None
      end
  | _ => None
  end.

Definition base64_char (c : ascii) : bool :=
  char_in c base64_alphabet || Ascii.eqb c "=".

(** The two languages that reach an inherited property of the table. *)
Definition inherited_name (language : string) : bool :=
  String.eqb (JS.toLowerCase language) "constructor"
  || String.eqb (JS.toLowerCase language) "__proto__".

(** ** The fetch functions

    What [fetch] resolves to, as far as the two functions look at it:
    [response.ok], [response.status] and what [response.json()] gives; a
    rejected [fetch] is an [answer] that failed. *)
Record http_response (A : Type) : Type := HttpResponse {
  ok : bool;
  status : N;
  json : answer A;
}.
Arguments HttpResponse {A} ok status json.
Arguments ok {A} h.
Arguments status {A} h.
Arguments json {A} h.

Definition fetchAllConversations {A} (response : answer (http_response A)) : answer A :=
  match response with
  | Failed message => Failed message
  | Answered response =>
      if ok response then json response
      else Failed ("Failed to fetch conversations: " +:+ pretty (status response))
  end.

Definition fetchConversation {A} (response : answer (http_response A)) : answer A :=
  match response with
  | Failed message => Failed message
  | Answered response =>
      if ok response then json response
      else Failed ("Failed to fetch conversation: " +:+ pretty (status response))
  end.

(** A trace without the errors of the logged failures. *)
Definition silenced (e : event) : event :=
  match e with
  | LogFailure uuid _ => LogFailure uuid EmptyString
  | _ => e
  end.

(** The entries of an index whose conversation requests are answered by
    the given responses, and a response with another status. *)
Definition fetched (requests : list (Summary.t * answer (http_response Conversation.t)))
    : list entry :=
  (λ r, (fst r, fetchConversation (snd r))) <$> requests.

Definition with_status {A} (f : N → N) (response : answer (http_response A))
    : answer (http_response A) :=
  match response with
  | Failed message => Failed message
  | Answered response =>
      Answered {| ok := ok response; status := f (status response);
                  json := json response |}
  end.

(** The text fragments of a list of content blocks, in order; a block
    without text, or with an empty text, gives nothing. *)
Fixpoint fragments (blocks : list block) : string :=
  match blocks with
  | [] => EmptyString
  | b :: blocks' => or_else (block_text b) EmptyString +:+ fragments blocks'
  end.

(** * Properties *)

(** ** Strings *)

#[local] Arguments String.append !_ _ / : simpl nomatch.

Section Strings.
Implicit Types s t u v p : string.

Lemma app_nil_r s : s +:+ EmptyString = s.
Proof. induction s as [|c s IH]; simpl; [done | by rewrite IH]. Qed.

Lemma app_assoc s t u : (s +:+ t) +:+ u = s +:+ (t +:+ u).
Proof. induction s as [|c s IH]; simpl; [done | by rewrite IH]. Qed.

Lemma length_app s t : String.length (s +:+ t) = String.length s + String.length t.
Proof. induction s as [|c s IH]; simpl; [done | by rewrite IH]. Qed.

Lemma app_inj_r s t u : s +:+ u = t +:+ u → s = t.
Proof.
  revert t; induction s as [|c s IH]; intros [|d t] H; simpl in *.
  - done.
  - apply (f_equal String.length) in H; simpl in H; rewrite length_app in H; lia.
  - apply (f_equal String.length) in H; simpl in H; rewrite length_app in H; lia.
  - injection H as -> H. f_equal. by apply IH.
Qed.

Lemma strip_prefix_app p s : JS.strip_prefix p (p +:+ s) = Some s.
Proof.
  induction p as [|c p IH]; simpl; [done|]. by rewrite Ascii.eqb_refl.
Qed.

Lemma strip_prefix_inv p s t : JS.strip_prefix p s = Some t → s = p +:+ t.
Proof.
  revert s; induction p as [|c p IH]; intros [|d s]; simpl; try congruence.
  destruct (Ascii.eqb_spec c d) as [->|]; [|done].
  intros H. f_equal. by apply IH.
Qed.

Lemma take_app p s : JS.take (String.length p) (p +:+ s) = p.
Proof. induction p as [|c p IH]; simpl; [by destruct s | by rewrite IH]. Qed.

Lemma drop_app p s : JS.drop (String.length p) (p +:+ s) = s.
Proof. induction p as [|c p IH]; simpl; [by destruct s | done]. Qed.

Lemma drop_0 s : JS.drop 0 s = s.
Proof. by destruct s. Qed.

Lemma occurs_cons pat c s : occurs pat s → occurs pat (String c s).
Proof. intros (u & v & ->). by exists (String c u), v. Qed.

Lemma occurs_app_l pat u s : occurs pat s → occurs pat (u +:+ s).
Proof. induction u; simpl; auto using occurs_cons. Qed.

Lemma includes_cons pat c s :
  includes pat (String c s) =
  match JS.strip_prefix pat (String c s) with
  | Some _ => true
  | None => includes pat s
  end.
Proof. done. Qed.

Lemma occurs_includes pat s : occurs pat s → includes pat s = true.
Proof.
  intros (u & v & ->). induction u as [|c u IH].
  - change (EmptyString +:+ ?x) with x.
    destruct (pat +:+ v) eqn:E; simpl; rewrite <- E, strip_prefix_app; done.
  - change (String c u +:+ ?x) with (String c (u +:+ x)).
    rewrite includes_cons, IH.
    by destruct (JS.strip_prefix pat _).
Qed.

Lemma includes_occurs pat s : includes pat s = true → occurs pat s.
Proof.
  induction s as [|c s IH].
  - simpl. destruct (JS.strip_prefix pat EmptyString) as [after|] eqn:E; [|done].
    intros _. apply strip_prefix_inv in E. by exists EmptyString, after.
  - rewrite includes_cons.
    destruct (JS.strip_prefix pat (String c s)) as [after|] eqn:E.
    + intros _. apply strip_prefix_inv in E. by exists EmptyString, after.
    + intros H. by apply occurs_cons, IH.
Qed.

Lemma not_includes pat s : includes pat s = false → ¬ occurs pat s.
Proof. intros H Ho. apply occurs_includes in Ho. congruence. Qed.

(** A pattern whose first character does not come back later in it
    cannot overlap a later copy of itself. *)
Lemma strip_prefix_before c p u w r :
  char_in c p = false →
  JS.strip_prefix p (u +:+ String c w) = Some r →
  ∃ t, u = p +:+ t.
Proof.
  revert u; induction p as [|a p IH]; intros u Hc H; simpl in *.
  - by exists u.
  - apply orb_false_iff in Hc as [Hac Hc].
    destruct u as [|b u]; simpl in H.
    + by rewrite Hac in H.
    + destruct (Ascii.eqb_spec a b) as [->|]; [|done].
      destruct (IH u Hc H) as [t ->]. by exists t.
Qed.

Lemma strip_prefix_overlap c p u v r :
  char_in c p = false →
  u ≠ EmptyString →
  JS.strip_prefix (String c p) (u +:+ String c p +:+ v) = Some r →
  ∃ t, u = String c p +:+ t.
Proof.
  intros Hc Hu H. destruct u as [|b u]; [done|]. simpl in H.
  destruct (Ascii.eqb_spec c b) as [->|]; [|done].
  destruct (strip_prefix_before _ _ _ _ _ Hc H) as [t ->]. by exists t.
Qed.

Lemma find_sub_occurs pat s before after :
  find_sub pat s = Some (before, after) → s = before +:+ pat +:+ after.
Proof.
  revert before; induction s as [|c s IH]; intros before; simpl.
  - destruct (JS.strip_prefix pat EmptyString) eqn:E; [|done].
    intros [= <- <-]. by apply strip_prefix_inv in E.
  - destruct (JS.strip_prefix pat (String c s)) eqn:E.
    + intros [= <- <-]. by apply strip_prefix_inv in E.
    + destruct (find_sub pat s) as [[b a]|]; [|done].
      intros [= <- <-]. simpl. f_equal. by apply IH.
Qed.

Lemma find_sub_cons pat d s :
  find_sub pat (String d s) =
  match JS.strip_prefix pat (String d s) with
  | Some after => Some (EmptyString, after)
  | None =>
      match find_sub pat s with
      | Some (before, after) => Some (String d before, after)
      | None => None
      end
  end.
Proof. done. Qed.

Lemma find_sub_first c p body post :
  char_in c p = false →
  ¬ occurs (String c p) body →
  find_sub (String c p) (body +:+ String c p +:+ post) = Some (body, post).
Proof.
  intros Hc. induction body as [|d body IH]; intros Hno.
  - change (EmptyString +:+ ?x) with x.
    destruct post; simpl; rewrite Ascii.eqb_refl, strip_prefix_app; done.
  - change (String d body +:+ ?x) with (String d (body +:+ x)).
    rewrite find_sub_cons.
    destruct (JS.strip_prefix (String c p) (String d (body +:+ String c p +:+ post))) eqn:E.
    + apply (strip_prefix_overlap c p (String d body) post) in E as [t Ht]; [|done..].
      destruct Hno. exists EmptyString, t. by rewrite Ht.
    + rewrite IH; [done|]. intros Ho. apply Hno. by apply occurs_cons.
Qed.

Lemma strip_prefix_extend p s r :
  JS.strip_prefix p s = None → String.length p ≤ String.length s →
  JS.strip_prefix p (s +:+ r) = None.
Proof.
  revert s; induction p as [|a p IH]; intros [|b s]; simpl; try done; try lia.
  destruct (Ascii.eqb a b); [|done]. intros H Hlen. apply IH; [done|lia].
Qed.

(** Before the first occurrence of a pattern, the pattern starts nowhere. *)
Lemma find_sub_not_before pat pre :
  first_after pat pre →
  ∀ u v rest, pre = u +:+ v → v ≠ EmptyString →
    JS.strip_prefix pat (v +:+ pat +:+ rest) = None.
Proof.
  unfold first_after.
  induction pre as [|c pre IH]; intros H u v rest Huv Hv.
  - by destruct u, v.
  - change (String c pre +:+ pat) with (String c (pre +:+ pat)) in H.
    rewrite find_sub_cons in H.
    destruct (JS.strip_prefix pat (String c (pre +:+ pat))) eqn:E; [done|].
    destruct (find_sub pat (pre +:+ pat)) as [[b a]|] eqn:E'; [|done].
    injection H as -> ->.
    destruct u as [|d u]; simpl in Huv.
    + subst v. rewrite <- app_assoc. apply strip_prefix_extend; [done|].
      simpl. rewrite length_app. lia.
    + injection Huv as <- ->. by apply (IH eq_refl u).
Qed.

Lemma span_app (cls : ascii → bool) x rest :
  all_chars cls x = true → begins_with cls rest = false →
  span cls (x +:+ rest) = (x, rest).
Proof.
  intros Hx Hrest. induction x as [|c x IH]; simpl in *.
  - destruct rest as [|d rest]; simpl in *; [done|]. by rewrite Hrest.
  - apply andb_true_iff in Hx as [-> Hx]. by rewrite IH.
Qed.

Lemma all_chars_not_char c x :
  char_in c x = false → all_chars (not_char c) x = true.
Proof.
  induction x as [|d x IH]; simpl; [done|].
  intros [H1 H2]%orb_false_iff. unfold not_char at 1. rewrite H1. simpl. auto.
Qed.

Lemma split_at_first x attrs rest :
  char_in x attrs = false →
  split_at x (attrs +:+ String x rest) = Some (attrs, rest).
Proof.
  induction attrs as [|c attrs IH]; simpl; intros H.
  - by rewrite Ascii.eqb_refl.
  - apply orb_false_iff in H as [-> H]. by rewrite IH.
Qed.

Lemma split_at_inv x s before after :
  split_at x s = Some (before, after) → s = before +:+ String x after.
Proof.
  revert before; induction s as [|c s IH]; intros before; simpl; [done|].
  destruct (Ascii.eqb_spec c x) as [->|].
  - by intros [= <- <-].
  - destruct (split_at x s) as [[b a]|]; [|done].
    intros [= <- <-]. simpl. f_equal. by apply IH.
Qed.

End Strings.

(** ** The matcher on the patterns of the program *)

Section Matching.
Context {R : Type}.
Implicit Types k : nat → string → option R.

(** A greedy run of characters other than [x] followed by [x] stops at the
    first [x]: giving characters back never finds another one. *)
Lemma star_greedy_until x k k2 n s :
  (∀ n' s', k n' s' =
     match JS.strip_prefix (String x EmptyString) s' with
     | Some t => k2 (n' + 1) t
     | None => None
     end) →
  star_greedy (not_char x) k n s =
  match split_at x s with
  | Some (attrs, rest) => k2 (n + String.length attrs + 1) rest
  | None => None
  end.
Proof.
  intros Hk. revert n; induction s as [|c s IH]; intros n; simpl.
  - by rewrite Hk.
  - unfold not_char at 1. destruct (Ascii.eqb_spec c x) as [->|Hne]; simpl.
    + rewrite Hk. simpl. rewrite Ascii.eqb_refl.
      destruct s; simpl; f_equal; lia.
    + rewrite IH, Hk. simpl.
      destruct (Ascii.eqb_spec x c) as [->|_]; [done|].
      destruct (split_at x s) as [[attrs rest]|]; simpl; [|done].
      replace (n + S (String.length attrs) + 1)
        with (S (n + String.length attrs + 1)) by lia.
      by destruct (k2 _ rest).
Qed.

(** A lazy run of arbitrary characters followed by a literal that ends
    the match stops at the first occurrence of the literal. *)
Lemma star_lazy_until pat k (result : nat → string → R) n s :
  (∀ n' s', k n' s' =
     match JS.strip_prefix pat s' with
     | Some t => Some (result n' t)
     | None => None
     end) →
  star_lazy any_char k n s =
  match find_sub pat s with
  | Some (body, post) => Some (result (n + String.length body) post)
  | None => None
  end.
Proof.
  intros Hk. revert n; induction s as [|c s IH]; intros n.
  - simpl. rewrite Hk. destruct (JS.strip_prefix pat EmptyString); simpl; [|done].
    do 2 f_equal; lia.
  - rewrite find_sub_cons. cbn [star_lazy any_char]. rewrite Hk.
    destruct (JS.strip_prefix pat (String c s)); simpl.
    + do 2 f_equal; lia.
    + rewrite IH. destruct (find_sub pat s) as [[body post]|]; simpl; [|done].
      do 2 f_equal; lia.
Qed.

(** A greedy run that ends the match takes the longest run. *)
Lemma star_greedy_last cls k (result : nat → string → R) n s :
  (∀ n' s', k n' s' = Some (result n' s')) →
  star_greedy cls k n s =
  Some (result (n + String.length (fst (span cls s))) (snd (span cls s))).
Proof.
  intros Hk. revert n; induction s as [|c s IH]; intros n; simpl.
  - rewrite Hk. do 2 f_equal; lia.
  - destruct (cls c); simpl.
    + rewrite IH. destruct (span cls s) as [run rest]; simpl.
      do 2 f_equal; lia.
    + rewrite Hk. do 2 f_equal; lia.
Qed.
End Matching.

Section Search.
Implicit Types (r : regex) (s pre : string).

Lemma search_from_skip r i pre s :
  (∀ u v, pre = u +:+ v → v ≠ EmptyString → match_at r (v +:+ s) = None) →
  search_from r i (pre +:+ s) = search_from r (i + String.length pre) s.
Proof.
  revert i; induction pre as [|c pre IH]; intros i H.
  - simpl. f_equal; lia.
  - change (String c pre +:+ s) with (String c (pre +:+ s)).
    cbn [search_from].
    assert (match_at r (String c (pre +:+ s)) = None) as ->
      by by apply (H EmptyString (String c pre)).
    rewrite IH.
    + f_equal; simpl; lia.
    + intros u v -> Hv. by apply (H (String c u) v).
Qed.

Lemma search_from_none r i s :
  (∀ u v, s = u +:+ v → match_at r v = None) → search_from r i s = None.
Proof.
  revert i; induction s as [|c s IH]; intros i H; cbn [search_from].
  - by rewrite (H EmptyString EmptyString eq_refl).
  - rewrite (H EmptyString (String c s) eq_refl).
    apply IH. intros u v ->. by apply (H (String c u) v).
Qed.

(** Where a match can lie, when every anchored match is not empty and
    stays inside its subject. *)
Lemma search_from_bounds r i s m :
  (∀ t n caps, match_at r t = Some (n, caps) → 0 < n ≤ String.length t) →
  search_from r i s = Some m →
  i ≤ index m ∧ index m < stop m ∧ stop m ≤ i + String.length s.
Proof.
  intros Hr. revert i; induction s as [|c s IH]; intros i; cbn [search_from].
  - destruct (match_at r EmptyString) as [[n caps]|] eqn:E; [|done].
    intros [= <-]. apply Hr in E. simpl in *. lia.
  - destruct (match_at r (String c s)) as [[n caps]|] eqn:E.
    + intros [= <-]. apply Hr in E. simpl in *. lia.
    + intros H. apply IH in H. simpl. lia.
Qed.
End Search.

(** ** The artifact pattern *)

Section ArtifactPattern.

(** The artifact pattern as a scan: the opening literal, the first [>],
    the first closing tag after it. *)
Lemma match_at_artifact s :
  match_at artifactRegex s =
  match JS.strip_prefix open_tag s with
  | None => None
  | Some s1 =>
      match split_at ">" s1 with
      | None => None
      | Some (attrs, s2) =>
          match find_sub close_tag s2 with
          | None => None
          | Some (body, post) =>
              let start := 12 + String.length attrs + 1 in
              Some (start + String.length body + 14,
                    [(start, start + String.length body)])
          end
      end
  end.
Proof.
  unfold match_at, artifactRegex. cbn [rmatch].
  destruct (JS.strip_prefix open_tag s) as [s1|]; [|done].
  rewrite (star_greedy_until _ _
             (λ m t, rmatch (Seq (Group (Star false any_char)) (Lit close_tag))
                       (λ n _ caps, Some (n, caps)) m t [])); [|done].
  destruct (split_at ">" s1) as [[attrs s2]|]; [|done].
  cbn [rmatch].
  set (start := 0 + String.length open_tag + String.length attrs + 1).
  rewrite (star_lazy_until close_tag _
             (λ n' t, (n' + String.length close_tag, [(start, n')]))); [|done].
  destruct (find_sub close_tag s2) as [[body post]|]; [|done].
  done.
Qed.

Lemma match_at_artifact_inv s n caps :
  match_at artifactRegex s = Some (n, caps) →
  ∃ attrs body post,
    s = open_tag +:+ attrs +:+ ">" +:+ body +:+ close_tag +:+ post ∧
    n = String.length (open_tag +:+ attrs +:+ ">" +:+ body +:+ close_tag).
Proof.
  rewrite match_at_artifact.
  destruct (JS.strip_prefix open_tag s) as [s1|] eqn:E1; [|done].
  destruct (split_at ">" s1) as [[attrs s2]|] eqn:E2; [|done].
  destruct (find_sub close_tag s2) as [[body post]|] eqn:E3; [|done].
  intros [= <- <-]. exists attrs, body, post.
  apply strip_prefix_inv in E1 as ->. apply split_at_inv in E2 as ->.
  apply find_sub_occurs in E3 as ->. split; [done|].
  rewrite !length_app. simpl. lia.
Qed.

Lemma match_at_artifact_bounds t n caps :
  match_at artifactRegex t = Some (n, caps) → 0 < n ≤ String.length t.
Proof.
  intros (attrs & body & post & -> & ->)%match_at_artifact_inv.
  rewrite !length_app. simpl. lia.
Qed.

Lemma match_at_artifact_occurs s n caps :
  match_at artifactRegex s = Some (n, caps) → occurs close_tag s.
Proof.
  intros (attrs & body & post & -> & _)%match_at_artifact_inv.
  exists (open_tag +:+ attrs +:+ ">" +:+ body), post.
  by rewrite !app_assoc.
Qed.

Lemma match_at_artifact_region attrs body post :
  char_in ">" attrs = false →
  ¬ occurs close_tag body →
  match_at artifactRegex (open_tag +:+ attrs +:+ ">" +:+ body +:+ close_tag +:+ post) =
  Some (String.length (open_tag +:+ attrs +:+ ">" +:+ body +:+ close_tag),
        [(String.length (open_tag +:+ attrs +:+ ">"),
          String.length (open_tag +:+ attrs +:+ ">") + String.length body)]).
Proof.
  intros Hattrs Hbody. rewrite match_at_artifact, strip_prefix_app.
  change (">" +:+ ?x) with (String ">" x).
  rewrite split_at_first by done.
  change close_tag with (String "<" "/antArtifact>") at 1 2.
  rewrite find_sub_first by done.
  cbv zeta. rewrite !length_app. simpl.
  rewrite length_app. simpl. repeat (f_equal; try lia).
Qed.

(** No match starts inside a text that does not contain the opening
    literal, whatever follows it. *)
Lemma match_at_artifact_before u v rest :
  ¬ occurs open_tag (u +:+ v) →
  v ≠ EmptyString →
  match_at artifactRegex (v +:+ open_tag +:+ rest) = None.
Proof.
  intros Hno Hv. rewrite match_at_artifact.
  destruct (JS.strip_prefix open_tag (v +:+ open_tag +:+ rest)) as [s1|] eqn:E; [|done].
  change open_tag with (String "<" "antArtifact") in E.
  apply strip_prefix_overlap in E as [t ->]; [|done..].
  destruct Hno. by exists u, t.
Qed.

Lemma search_from_here r i s m :
  match_at r s = Some m → search_from r i s = Some (result_at i s m).
Proof. intros H. destruct s; simpl; by rewrite H. Qed.

(** The loop stops by itself: a larger bound changes nothing. *)
Lemma extract_loop_bound b b' text i :
  String.length text - i < b → String.length text - i < b' →
  extract_loop b text i = extract_loop b' text i.
Proof.
  revert b' i; induction b as [|b IH]; intros [|b'] i Hb Hb'; try lia.
  simpl. destruct (exec artifactRegex text i) as [m|] eqn:E; [|done].
  f_equal. unfold exec in E.
  destruct (Nat.leb_spec i (String.length text)) as [Hi|]; [|done].
  apply search_from_bounds in E; [|apply match_at_artifact_bounds].
  assert (String.length (JS.drop i text) = String.length text - i) as Hlen.
  { clear. revert i; induction text as [|c text IH]; intros [|i]; simpl; auto. }
  apply IH; lia.
Qed.

Lemma exec_start r text : exec r text 0 = search_from r 0 text.
Proof. unfold exec. by rewrite drop_0. Qed.

Lemma exec_after r u v :
  exec r (u +:+ v) (String.length u) = search_from r (String.length u) v.
Proof.
  unfold exec. rewrite drop_app, length_app.
  by destruct (Nat.leb_spec (String.length u) (String.length u + String.length v)); [|lia].
Qed.

(** One region, delimited by the first [>] after the opening literal and
    the first closing tag after that, in a text with no other match. *)
Lemma extract_region pre attrs body post :
  includes open_tag pre = false →
  char_in ">" attrs = false →
  includes close_tag body = false →
  includes close_tag post = false →
  extractArtifacts
    (pre +:+ open_tag +:+ attrs +:+ ">" +:+ body +:+ close_tag +:+ post) =
  [ artifact_of_match
      {| index := String.length pre;
         whole := open_tag +:+ attrs +:+ ">" +:+ body +:+ close_tag;
         groups := [body];
         stop := String.length pre +
                 String.length (open_tag +:+ attrs +:+ ">" +:+ body +:+ close_tag) |} ].
Proof.
  intros Hpre%not_includes Hattrs Hbody%not_includes Hpost%not_includes.
  unfold extractArtifacts. cbn [extract_loop].
  rewrite exec_start, search_from_skip; last first.
  { intros u v -> Hv. by apply (match_at_artifact_before u). }
  erewrite search_from_here by by apply match_at_artifact_region.
  set (region := open_tag +:+ attrs +:+ ">" +:+ body +:+ close_tag).
  set (text := pre +:+ _).
  assert (text = (pre +:+ region) +:+ post) as Htext.
  { unfold text, region. by rewrite !app_assoc. }
  assert (open_tag +:+ attrs +:+ ">" +:+ body +:+ close_tag +:+ post
          = region +:+ post) as Hregion.
  { unfold region. by rewrite !app_assoc. }
  unfold result_at; cbn [fst snd map index whole groups stop]. f_equal.
  - f_equal. rewrite Hregion. f_equal.
    + by rewrite take_app.
    + f_equal.
      replace (region +:+ post)
        with ((open_tag +:+ attrs +:+ ">") +:+ body +:+ close_tag +:+ post)
        by (unfold region; by rewrite !app_assoc).
      rewrite drop_app.
      replace (_ + String.length body - _) with (String.length body) by lia.
      by rewrite take_app.
  - destruct (String.length text) as [|b] eqn:Hlen; [done|].
    cbn [extract_loop].
    replace (0 + String.length pre + String.length region)
      with (String.length (pre +:+ region)) by (rewrite length_app; lia).
    rewrite Htext, exec_after, search_from_none; [done|].
    intros u v ->. destruct (match_at artifactRegex v) as [[n caps]|] eqn:E; [|done].
    destruct Hpost. by apply occurs_app_l, (match_at_artifact_occurs _ n caps).
Qed.

(** The attribute lookup returns the value that follows the first
    occurrence of the attribute name in the text it is given. *)
Lemma attribute_first name fallback pre x rest :
  first_after (attribute_start name) pre →
  char_in dquote x = false →
  begins_with (not_char dquote) rest = false →
  attribute (attributeRegex name) fallback
    (pre +:+ attribute_start name +:+ x +:+ rest) = x.
Proof.
  intros Hpre Hx Hrest. unfold attribute, match_.
  assert (∀ s, match_at (attributeRegex name) s =
               match JS.strip_prefix (attribute_start name) s with
               | Some s' =>
                   let n := String.length (attribute_start name) in
                   Some (n + String.length (fst (span (not_char dquote) s')),
                         [(n, n + String.length (fst (span (not_char dquote) s')))])
               | None => None
               end) as Hat.
  { intros s. unfold match_at, attributeRegex. cbn [rmatch].
    fold (attribute_start name).
    destruct (JS.strip_prefix (attribute_start name) s) as [s'|]; [|done].
    by rewrite (star_greedy_last _ _ (λ n' _, (n', [(0 + String.length (attribute_start name), n')]))). }
  rewrite search_from_skip; last first.
  { intros u v Huv Hv. rewrite Hat.
    by rewrite (find_sub_not_before _ _ Hpre u v (x +:+ rest) Huv Hv). }
  erewrite search_from_here; last first.
  { rewrite Hat, strip_prefix_app. cbv zeta.
    rewrite span_app by auto using all_chars_not_char. reflexivity. }
  unfold group, result_at; cbn [groups snd fst map lookup list_lookup].
  simpl default. rewrite drop_app.
  replace (_ + String.length x - _) with (String.length x) by lia.
  by rewrite take_app.
Qed.

End ArtifactPattern.

(** ** Tag extraction *)

(** C6.  In a text made of an opening tag, some content, a second opening
    tag, more content and one closing tag, [extractArtifacts] finds exactly
    one artifact: the region runs from the first opening tag to the closing
    tag, and the second opening tag is part of its content.  The match is
    not recursive and the first closing tag ends it. *)
Theorem nested_open_tag_is_content (pre attrs b1 attrs' b2 post : string) :
  includes open_tag pre = false →
  char_in ">" attrs = false →
  includes close_tag (b1 +:+ open_tag +:+ attrs' +:+ ">" +:+ b2) = false →
  includes close_tag post = false →
  let inner := b1 +:+ open_tag +:+ attrs' +:+ ">" +:+ b2 in
  let region := open_tag +:+ attrs +:+ ">" +:+ inner +:+ close_tag in
  extractArtifacts (pre +:+ region +:+ post) =
  [ {| title := attribute titleRegex "Untitled" region;
       language := attribute languageRegex "txt" region;
       content := JS.trim inner |} ].
Proof.
  intros Hpre Hattrs Hinner Hpost inner region.
  replace (pre +:+ region +:+ post)
    with (pre +:+ open_tag +:+ attrs +:+ ">" +:+ inner +:+ close_tag +:+ post)
    by (unfold region; by rewrite !app_assoc).
  by rewrite extract_region.
Qed.

Lemma nested_open_tag_is_content_witness :
  includes open_tag "see " = false ∧
  char_in ">" " id=1" = false ∧
  includes close_tag ("a" +:+ open_tag +:+ " id=2" +:+ ">" +:+ "b") = false ∧
  includes close_tag " end" = false ∧
  extractArtifacts "see <antArtifact id=1>a<antArtifact id=2>b</antArtifact> end" =
  [ {| title := "Untitled"; language := "txt";
       content := "a<antArtifact id=2>b" |} ].
Proof.
  do 4 (split; [reflexivity|]).
  exact (nested_open_tag_is_content "see " " id=1" "a" " id=2" "b" " end"
           eq_refl eq_refl eq_refl eq_refl).
Defined.

(** With two closing tags the outer artifact ends at the first one: the
    inner block is not extracted and the outer content is cut short. *)
Example nested_blocks_not_round_tripped :
  extractArtifacts "<antArtifact>a<antArtifact>b</antArtifact>c</antArtifact>" =
  [ {| title := "Untitled"; language := "txt"; content := "a<antArtifact>b" |} ].
Proof. reflexivity. Qed.

(** C9.  The attribute lookups scan the whole matched region, not the
    opening tag alone.  Take a tag without attributes whose body holds the
    text of a title attribute with value [x], after some text [before] in
    which that text does not start earlier: the title of the artifact is
    [x], not [Untitled].  Likewise for the language. *)
Theorem attributes_scan_whole_region (before x tail : string) :
  char_in dquote x = false →
  (first_after (attribute_start "title") ("<antArtifact>" +:+ before) →
   includes close_tag (before +:+ attribute_text "title" x +:+ tail) = false →
   map title (extractArtifacts
     ("<antArtifact>" +:+ before +:+ attribute_text "title" x +:+ tail +:+ close_tag)) = [x])
  ∧
  (first_after (attribute_start "language") ("<antArtifact>" +:+ before) →
   includes close_tag (before +:+ attribute_text "language" x +:+ tail) = false →
   map language (extractArtifacts
     ("<antArtifact>" +:+ before +:+ attribute_text "language" x +:+ tail +:+ close_tag)) = [x]).
Proof.
  intros Hx.
  assert (∀ name fallback,
    first_after (attribute_start name) ("<antArtifact>" +:+ before) →
    includes close_tag (before +:+ attribute_text name x +:+ tail) = false →
    let body := before +:+ attribute_text name x +:+ tail in
    extractArtifacts ("<antArtifact>" +:+ before +:+ attribute_text name x +:+ tail +:+ close_tag)
    = [ artifact_of_match
          {| index := 0;
             whole := open_tag +:+ EmptyString +:+ ">" +:+ body +:+ close_tag;
             groups := [body];
             stop := 0 + String.length (open_tag +:+ EmptyString +:+ ">" +:+ body +:+ close_tag) |} ]
    ∧ attribute (attributeRegex name) fallback
        (open_tag +:+ EmptyString +:+ ">" +:+ body +:+ close_tag) = x) as H.
  { intros name fallback Hfirst Hbody body. split.
    - assert ("<antArtifact>" +:+ before +:+ attribute_text name x +:+ tail +:+ close_tag
              = EmptyString +:+ open_tag +:+ EmptyString +:+ ">" +:+ body
                +:+ close_tag +:+ EmptyString) as ->.
      { unfold body, open_tag. simpl. rewrite !app_assoc. reflexivity. }
      by apply extract_region.
    - replace (open_tag +:+ EmptyString +:+ ">" +:+ body +:+ close_tag)
        with (("<antArtifact>" +:+ before) +:+ attribute_start name +:+ x
              +:+ String dquote (tail +:+ close_tag)).
      + apply attribute_first; [done.. |].
        simpl. unfold not_char. by rewrite Ascii.eqb_refl.
      + unfold body, attribute_text. simpl. by rewrite !app_assoc. }
  split; intros Hfirst Hbody.
  - destruct (H "title" "Untitled" Hfirst Hbody) as [-> Ht].
    unfold artifact_of_match, titleRegex. cbn [map title group whole].
    by rewrite Ht.
  - destruct (H "language" "txt" Hfirst Hbody) as [-> Hl].
    unfold artifact_of_match, languageRegex. cbn [map language group whole].
    by rewrite Hl.
Qed.

Lemma attributes_scan_whole_region_witness :
  char_in dquote "x" = false ∧
  map title (extractArtifacts
    ("<antArtifact>" +:+ attribute_text "title" "x" +:+ "</antArtifact>")) = ["x"] ∧
  map language (extractArtifacts
    ("<antArtifact>" +:+ attribute_text "language" "x" +:+ "</antArtifact>")) = ["x"].
Proof.
  split; [reflexivity|].
  destruct (attributes_scan_whole_region EmptyString "x" EmptyString eq_refl) as [Ht Hl].
  split; [exact (Ht eq_refl eq_refl) | exact (Hl eq_refl eq_refl)].
Defined.

Lemma attribute_absent name fallback s :
  includes (attribute_start name) s = false →
  attribute (attributeRegex name) fallback s = fallback.
Proof.
  intros Hno%not_includes. unfold attribute, match_.
  rewrite search_from_none; [done|]. intros u v ->.
  unfold match_at, attributeRegex. cbn [rmatch]. fold (attribute_start name).
  destruct (JS.strip_prefix (attribute_start name) v) as [after|] eqn:E; [|done].
  destruct Hno. apply strip_prefix_inv in E as ->. by exists u, after.
Qed.

(** C5, as the code has it.  The title of a matched region in which the
    text of a title attribute occurs nowhere is [Untitled], and the
    language of a region in which the text of a language attribute occurs
    nowhere is [txt]; a tag without attributes around a body that holds
    neither text gives both defaults. *)
Theorem defaults_when_attribute_absent :
  (∀ m, includes (attribute_start "title") (whole m) = false →
        title (artifact_of_match m) = "Untitled") ∧
  (∀ m, includes (attribute_start "language") (whole m) = false →
        language (artifact_of_match m) = "txt") ∧
  (∀ body,
     includes close_tag body = false →
     includes (attribute_start "title") ("<antArtifact>" +:+ body +:+ close_tag) = false →
     includes (attribute_start "language") ("<antArtifact>" +:+ body +:+ close_tag) = false →
     extractArtifacts ("<antArtifact>" +:+ body +:+ close_tag) =
     [ {| title := "Untitled"; language := "txt"; content := JS.trim body |} ]).
Proof.
  split; [|split].
  - intros m H. by apply attribute_absent.
  - intros m H. by apply attribute_absent.
  - intros body Hbody Htitle Hlanguage.
    assert ("<antArtifact>" +:+ body +:+ close_tag
            = EmptyString +:+ open_tag +:+ EmptyString +:+ ">" +:+ body
              +:+ close_tag +:+ EmptyString) as Htext.
    { unfold open_tag. simpl. reflexivity. }
    rewrite Htext at 1. rewrite extract_region by done.
    unfold artifact_of_match, titleRegex, languageRegex.
    cbn [group whole groups lookup list_lookup default]. simpl default.
    change (open_tag +:+ EmptyString +:+ ">" +:+ body +:+ close_tag)
      with ("<antArtifact>" +:+ body +:+ close_tag).
    by rewrite !attribute_absent.
Qed.

Lemma defaults_when_attribute_absent_witness :
  includes close_tag "print(1)" = false ∧
  extractArtifacts "<antArtifact>print(1)</antArtifact>" =
  [ {| title := "Untitled"; language := "txt"; content := "print(1)" |} ].
Proof.
  split; [reflexivity|].
  exact (proj2 (proj2 defaults_when_attribute_absent) "print(1)" eq_refl eq_refl eq_refl).
Defined.

(** C5, as stated, fails: on a tag without attributes whose body quotes a
    title and a language, the artifact carries the quoted values, not
    [Untitled] and [txt]. *)
Lemma defaults_overridden_by_body :
  extractArtifacts
    ("<antArtifact>" +:+ attribute_text "title" "x" +:+ " "
       +:+ attribute_text "language" "y" +:+ "</antArtifact>") =
  [ {| title := "x"; language := "y";
       content := attribute_text "title" "x" +:+ " " +:+ attribute_text "language" "y" |} ] ∧
  map (λ a, (title a, language a))
    (extractArtifacts
       ("<antArtifact>" +:+ attribute_text "title" "x" +:+ " "
          +:+ attribute_text "language" "y" +:+ "</antArtifact>")) ≠
  [ ("Untitled", "txt") ].
Proof. split; [reflexivity | discriminate]. Qed.

(** ** Sanitization *)

Section Sanitize.
Variables (keep unsafe : ascii → bool).
Hypothesis unsafe_keep : ∀ c, unsafe c = negb (keep c).

Lemma span_eq (cls : ascii → bool) s : s = fst (span cls s) +:+ snd (span cls s).
Proof.
  induction s as [|c s IH]; simpl; [done|].
  destruct (cls c); [|done]. destruct (span cls s); simpl in *. by f_equal.
Qed.

Lemma match_at_plus s :
  match_at (Plus unsafe) s =
  match s with
  | String c s' =>
      if unsafe c then Some (S (String.length (fst (span unsafe s'))), [])
      else None
  | EmptyString => None
  end.
Proof.
  destruct s as [|c s]; [done|]. unfold match_at. cbn [rmatch].
  destruct (unsafe c); [|done].
  by rewrite (star_greedy_last unsafe _ (λ n' _, (n', @nil (nat * nat))) 1 s).
Qed.

(** The leftmost run of unsafe characters: it starts after the longest
    prefix of kept characters and it is as long as it can be. *)
Lemma search_plus i s :
  search_from (Plus unsafe) i s =
  match snd (span keep s) with
  | EmptyString => None
  | String c s2 =>
      Some (result_at (i + String.length (fst (span keep s)))
              (snd (span keep s))
              (S (String.length (fst (span unsafe s2))), []))
  end.
Proof.
  revert i; induction s as [|c s IH]; intros i; cbn [search_from].
  - by rewrite match_at_plus.
  - rewrite match_at_plus. simpl span. rewrite unsafe_keep.
    destruct (keep c) eqn:Hc; simpl negb; cbv iota.
    + rewrite IH. destruct (span keep s) as [safe s1]; simpl.
      destruct s1; [done|]. do 2 f_equal. lia.
    + simpl. do 2 f_equal. lia.
Qed.

Lemma collapse_run s :
  collapse keep true s = collapse keep false (snd (span unsafe s)).
Proof.
  induction s as [|c s IH]; simpl; [done|].
  rewrite unsafe_keep. destruct (keep c) eqn:Hc; simpl.
  - by rewrite Hc.
  - rewrite IH. by destruct (span unsafe s).
Qed.

Lemma collapse_kept_prefix s :
  collapse keep false s =
  fst (span keep s) +:+
  match snd (span keep s) with
  | EmptyString => EmptyString
  | String c s2 => String "_" (collapse keep false (snd (span unsafe s2)))
  end.
Proof.
  induction s as [|c s IH]; simpl; [done|].
  destruct (keep c) eqn:Hc.
  - rewrite IH. by destruct (span keep s).
  - simpl. by rewrite collapse_run.
Qed.

(** The replacement loop computes the scan, and stops by itself. *)
Lemma replace_loop_collapse b s :
  String.length s < b →
  replace_loop b (Plus unsafe) "_" s = collapse keep false s.
Proof.
  revert s; induction b as [|b IH]; intros s Hb; [lia|].
  cbn [replace_loop]. rewrite search_plus, collapse_kept_prefix.
  pose proof (span_eq keep s) as Hs.
  destruct (span keep s) as [safe s1]; cbn [fst snd] in *.
  destruct s1 as [|c s2].
  - by rewrite Hs, app_nil_r.
  - unfold result_at; cbn [index stop fst snd].
    set (run := fst (span unsafe s2)). set (rest := snd (span unsafe s2)).
    assert (s2 = run +:+ rest) as Hs2 by apply span_eq.
    assert (s = (safe +:+ String c run) +:+ rest) as Hs'.
    { rewrite Hs, Hs2, app_assoc. done. }
    replace (0 + String.length safe + S (String.length run))
      with (String.length (safe +:+ String c run))
      by (rewrite length_app; simpl; lia).
    replace (0 + String.length safe) with (String.length safe) by lia.
    destruct (Nat.eqb_spec (String.length (safe +:+ String c run))
                (String.length safe)) as [E|_].
    { rewrite length_app in E; simpl in E; lia. }
    rewrite Hs' at 2. rewrite drop_app.
    rewrite Hs at 1. rewrite take_app.
    f_equal. simpl. f_equal. apply IH.
    rewrite Hs' in Hb. rewrite !length_app in Hb. simpl in Hb. lia.
Qed.

Lemma collapse_length in_run s :
  String.length (collapse keep in_run s) ≤ String.length s.
Proof.
  revert in_run; induction s as [|c s IH]; intros in_run; simpl; [done|].
  destruct (keep c); simpl.
  - specialize (IH false). lia.
  - destruct in_run; simpl; [specialize (IH true) | specialize (IH true)]; lia.
Qed.

Lemma collapse_unsafe_run bad t :
  bad ≠ EmptyString →
  all_chars unsafe bad = true →
  begins_with unsafe t = false →
  collapse keep false (bad +:+ t) = String "_" (collapse keep false t).
Proof.
  intros Hbad Hall Ht. rewrite collapse_kept_prefix.
  destruct bad as [|c bad]; [done|]. simpl in *.
  apply andb_true_iff in Hall as [Hc Hall].
  rewrite unsafe_keep in Hc. apply negb_true_iff in Hc. rewrite Hc. simpl.
  by rewrite span_app.
Qed.
End Sanitize.

Lemma sanitizeTitle_collapse t : sanitizeTitle t = collapse title_char false t.
Proof.
  unfold sanitizeTitle, Regex.replace, unsafeTitleRun.
  apply replace_loop_collapse; [done|lia].
Qed.

(** C4, as the code has it.  Sanitization keeps every character of the
    class and replaces every maximal run of characters outside it by one
    underscore, whatever the length of the run; the sanitized title is
    never longer than the title. *)
Theorem sanitize_replaces_runs :
  (∀ c t, title_char c = true →
     sanitizeTitle (String c t) = String c (sanitizeTitle t)) ∧
  (∀ bad t,
     bad ≠ EmptyString →
     all_chars (λ c, negb (title_char c)) bad = true →
     begins_with (λ c, negb (title_char c)) t = false →
     sanitizeTitle (bad +:+ t) = String "_" (sanitizeTitle t)) ∧
  (∀ t, String.length (sanitizeTitle t) ≤ String.length t).
Proof.
  split; [|split].
  - intros c t Hc. rewrite !sanitizeTitle_collapse. simpl. by rewrite Hc.
  - intros bad t Hbad Hall Ht. rewrite !sanitizeTitle_collapse.
    by apply (collapse_unsafe_run title_char (λ c, negb (title_char c))).
  - intros t. rewrite sanitizeTitle_collapse. apply collapse_length.
Qed.

Lemma sanitize_replaces_runs_witness :
  sanitizeTitle "a.b" = String "a" (sanitizeTitle ".b") ∧
  sanitizeTitle (" !?" +:+ "b c") = String "_" (sanitizeTitle "b c") ∧
  String.length (sanitizeTitle "a  b") ≤ String.length "a  b".
Proof.
  destruct sanitize_replaces_runs as (Hkeep & Hrun & Hlen).
  split; [exact (Hkeep "a"%char ".b" eq_refl)|].
  split; [|exact (Hlen "a  b")].
  apply (Hrun " !?" "b c"); [discriminate | reflexivity | reflexivity].
Defined.

(** C4, as stated, fails: two spaces give one underscore, not two, and the
    length changes. *)
Lemma sanitize_not_per_character :
  sanitizeTitle "a  b" = "a_b" ∧
  sanitizeTitle "a  b" ≠ replace_each title_char "a  b" ∧
  String.length (sanitizeTitle "a  b") ≠ String.length "a  b".
Proof. split; [reflexivity|]. split; [discriminate | simpl; lia]. Qed.

(** ** File names *)

Section Probe.
Variables (usedNames : gset string) (baseName extension : string).

Lemma numbered_inj j k :
  numbered baseName j extension = numbered baseName k extension → j = k.
Proof.
  unfold numbered. intros H.
  apply (inj (String.append baseName)), (inj (String.append "_")) in H.
  apply app_inj_r in H. by apply (inj pretty).
Qed.

Lemma numbered_not_plain k :
  numbered baseName k extension ≠ baseName +:+ extension.
Proof.
  unfold numbered. intros H. apply (inj (String.append baseName)) in H.
  apply (f_equal String.length) in H. simpl in H.
  rewrite length_app in H. lia.
Qed.

(** Either the loop left through its condition, or every candidate it
    was allowed to try is taken. *)
Lemma probe_spec bound fileName counter :
  probe bound usedNames baseName extension fileName counter ∉ usedNames ∨
  (fileName ∈ usedNames ∧
   ∀ j, j < bound →
     numbered baseName (counter + N.of_nat j) extension ∈ usedNames).
Proof.
  revert fileName counter; induction bound as [|bound IH]; intros fileName counter;
    cbn [probe]; case_bool_decide as Hin; auto.
  - right. split; [done|]. intros j Hj. lia.
  - destruct (IH (numbered baseName counter extension) (counter + 1)%N)
      as [Hfree|[Hfirst Hrest]]; [by left|].
    right. split; [done|]. intros [|j] Hj.
    + by rewrite N.add_0_r.
    + replace (counter + N.of_nat (S j))%N with (counter + 1 + N.of_nat j)%N by lia.
      apply Hrest. lia.
Qed.

(** As many candidates as the set has names, and one more, cannot all be
    in the set: the bound is never what stops the loop. *)
Lemma probe_fresh :
  probe (size usedNames) usedNames baseName extension
    (baseName +:+ extension) 1%N ∉ usedNames.
Proof.
  destruct (probe_spec (size usedNames) (baseName +:+ extension) 1%N)
    as [Hfree|[Hplain Hnumbered]]; [done|].
  exfalso.
  set (tried := (baseName +:+ extension) ::
        ((λ j, numbered baseName (1 + N.of_nat j) extension) <$> seq 0 (size usedNames))).
  assert (NoDup tried) as Hnodup.
  { apply NoDup_cons. split.
    - intros (j & Hj & _)%list_elem_of_fmap. by eapply numbered_not_plain.
    - apply NoDup_fmap_2; [|apply NoDup_seq].
      intros j k Hjk%numbered_inj. lia. }
  assert (list_to_set tried ⊆ usedNames) as Hsub.
  { intros x [->|(j & -> & Hj%elem_of_seq)%list_elem_of_fmap]%elem_of_list_to_set%elem_of_cons.
    - done.
    - apply Hnumbered. lia. }
  apply subseteq_size in Hsub. rewrite size_list_to_set in Hsub by done.
  unfold tried in Hsub. simpl in Hsub. rewrite length_fmap, length_seq in Hsub. lia.
Qed.
End Probe.

Lemma getUniqueFileName_spec title language usedNames conversationFolder :
  (fst (getUniqueFileName title language usedNames conversationFolder) ∉ usedNames) ∧
  snd (getUniqueFileName title language usedNames conversationFolder) =
    {[ fst (getUniqueFileName title language usedNames conversationFolder) ]} ∪ usedNames.
Proof. split; [apply probe_fresh | done]. Qed.

(** C1.  Each call returns a name that was not in the set and adds it to
    the set.  Hence the names returned by any sequence of calls on one set
    are pairwise distinct and new, and the set at the end is the set at the
    start together with all of them: nothing is removed. *)
Theorem allocated_names_distinct (calls : list (string * string * string))
    (usedNames : gset string) :
  (∀ title language folder,
     (fst (getUniqueFileName title language usedNames folder) ∉ usedNames) ∧
     snd (getUniqueFileName title language usedNames folder) =
       {[ fst (getUniqueFileName title language usedNames folder) ]} ∪ usedNames) ∧
  NoDup (fst (allocations calls usedNames)) ∧
  (∀ fileName, fileName ∈ fst (allocations calls usedNames) → fileName ∉ usedNames) ∧
  snd (allocations calls usedNames) =
    usedNames ∪ list_to_set (fst (allocations calls usedNames)).
Proof.
  split; [intros; apply getUniqueFileName_spec|].
  revert usedNames; induction calls as [|[[title language] folder] calls IH];
    intros usedNames; cbn [allocations].
  - simpl. split; [constructor|]. split; [by intros f ?%elem_of_nil|].
    by rewrite (right_id_L ∅ (∪)).
  - destruct (getUniqueFileName_spec title language usedNames folder) as [Hfresh Hadd].
    destruct (getUniqueFileName title language usedNames folder) as [fileName used].
    cbn [fst snd] in *. subst used.
    destruct (IH ({[fileName]} ∪ usedNames)) as (Hnodup & Hnew & Hfinal).
    destruct (allocations calls ({[fileName]} ∪ usedNames)) as [fileNames used'].
    cbn [fst snd] in *. split; [|split].
    + apply NoDup_cons. split; [|done]. intros Hin%Hnew.
      apply Hin, elem_of_union. left. by apply elem_of_singleton.
    + intros f [->|Hin%Hnew]%elem_of_cons; [done|].
      intros Hf. apply Hin, elem_of_union. by right.
    + rewrite Hfinal, list_to_set_cons.
      by rewrite (comm_L (∪) {[fileName]} usedNames), (assoc_L (∪)).
Qed.

Lemma allocated_names_distinct_witness :
  fst (allocations [("a", "python", "C"); ("a", "Python", "C"); ("a!", "python", "C");
                    ("a_1", "python", "C")] {[ "C/a.py" ]}) =
    ["C/a_1.py"; "C/a_2.py"; "C/a_.py"; "C/a_1_1.py"] ∧
  NoDup (fst (allocations [("a", "python", "C"); ("a", "Python", "C"); ("a!", "python", "C");
                           ("a_1", "python", "C")] {[ "C/a.py" ]})).
Proof.
  split; [reflexivity|].
  exact (proj1 (proj2 (allocated_names_distinct
    [("a", "python", "C"); ("a", "Python", "C"); ("a!", "python", "C");
     ("a_1", "python", "C")] {[ "C/a.py" ]}))).
Defined.

(** ** The export loop *)

Section Loop.
Variable total : nat.

Lemma export_entry_events j e :
  ∃ last,
    snd (export_entry total j e) =
      [announced total (processedCount j) e; requested e; last] ∧
    (last = Pause 500 ∨ ∃ error, last = LogFailure (Summary.uuid (fst e)) error) ∧
    processedCount (fst (export_entry total j e)) = S (processedCount j).
Proof.
  unfold export_entry, announced, requested. destruct e as [conv [message|fullConv]]; simpl.
  - eexists; split; [reflexivity|]. eauto.
  - destruct (processConversation fullConv (job_store j)) as [[n|err] st]; simpl.
    + eexists; split; [reflexivity|]. split; [auto|]. by destruct (0 <? n)%nat.
    + eexists; split; [reflexivity|]. eauto.
Qed.

(** The two ways an iteration on an entry ends: through the pause when
    nothing threw, through the [catch] otherwise. *)
Lemma export_entry_failed j conv message :
  export_entry total j (conv, Failed message) =
  (skipped j (job_store j),
   [announced total (processedCount j) (conv, Failed message);
    FetchConversation (Summary.uuid conv); LogFailure (Summary.uuid conv) message]).
Proof. done. Qed.

Lemma export_entry_thrown j conv fullConv error st :
  processConversation fullConv (job_store j) = (Thrown error, st) →
  export_entry total j (conv, Answered fullConv) =
  (skipped j st,
   [announced total (processedCount j) (conv, Answered fullConv);
    FetchConversation (Summary.uuid conv); LogFailure (Summary.uuid conv) error]).
Proof. intros H. unfold export_entry. simpl. by rewrite H. Qed.

Lemma export_entry_returned j conv fullConv n st :
  processConversation fullConv (job_store j) = (Returned n, st) →
  snd (export_entry total j (conv, Answered fullConv)) =
  [announced total (processedCount j) (conv, Answered fullConv);
   FetchConversation (Summary.uuid conv); Pause 500].
Proof. intros H. unfold export_entry. simpl. by rewrite H. Qed.

(** After an entry the loop goes on, whatever the entry gave; at [null]
    it ends. *)
Lemma export_loop_cons j e conversations :
  export_loop total j (Some e :: conversations) =
  (fst (fst (export_loop total (fst (export_entry total j e)) conversations)),
   snd (export_entry total j e) ++
   snd (fst (export_loop total (fst (export_entry total j e)) conversations)),
   snd (export_loop total (fst (export_entry total j e)) conversations)).
Proof.
  cbn [export_loop export_iteration]. destruct (export_entry total j e) as [j' events].
  cbn [fst snd]. by destruct (export_loop total j' conversations) as [[j'' events'] thrown].
Qed.

Lemma export_loop_null j conversations :
  export_loop total j (None :: conversations) =
  (skipped j (job_store j), [], Some (null_property_error "uuid")).
Proof. done. Qed.

Lemma export_loop_app j (entries : list entry) conversations :
  export_loop total j ((Some <$> entries) ++ conversations) =
  (fst (fst (export_loop total
               (fst (fst (export_loop total j (Some <$> entries)))) conversations)),
   snd (fst (export_loop total j (Some <$> entries))) ++
   snd (fst (export_loop total
               (fst (fst (export_loop total j (Some <$> entries)))) conversations)),
   snd (export_loop total
          (fst (fst (export_loop total j (Some <$> entries)))) conversations)).
Proof.
  revert j; induction entries as [|e entries IH]; intros j.
  - cbn [fmap list_fmap app export_loop fst snd].
    by destruct (export_loop total j conversations) as [[j' events] thrown].
  - cbn [fmap list_fmap app]. rewrite !export_loop_cons, IH. cbn [fst snd].
    by rewrite List.app_assoc.
Qed.

(** No entry ends the loop: on an index without [null] every iteration is
    entered. *)
Lemma export_loop_completes j (entries : list entry) :
  snd (export_loop total j (Some <$> entries)) = None ∧
  processedCount (fst (fst (export_loop total j (Some <$> entries)))) =
    processedCount j + length entries.
Proof.
  revert j; induction entries as [|e entries IH]; intros j.
  - simpl. split; [done | lia].
  - cbn [fmap list_fmap]. rewrite export_loop_cons. cbn [fst snd].
    destruct (IH (fst (export_entry total j e))) as [-> ->].
    destruct (export_entry_events j e) as (_ & _ & _ & ->). split; [done | simpl; lia].
Qed.

(** Every entry is announced and then requested, in the order of the
    index, whatever was answered for the entries before it. *)
Lemma export_loop_requests j (entries : list entry) :
  List.filter is_request (snd (fst (export_loop total j (Some <$> entries)))) =
  concat (imap (λ k e, [announced total (processedCount j + k) e; requested e])
            entries).
Proof.
  revert j; induction entries as [|e entries IH]; intros j; [done|].
  cbn [fmap list_fmap]. rewrite export_loop_cons. cbn [fst snd].
  rewrite List.filter_app, IH.
  destruct (export_entry_events j e) as (last & -> & Hlast & ->).
  rewrite imap_cons. cbn [concat]. rewrite Nat.add_0_r. f_equal.
  - destruct Hlast as [-> | [error ->]]; done.
  - f_equal. apply imap_ext. intros k x _. simpl. do 3 f_equal. lia.
Qed.

Lemma export_loop_progress j (entries : list entry) :
  List.filter is_progress (snd (fst (export_loop total j (Some <$> entries)))) =
  imap (λ k e, announced total (processedCount j + k) e) entries.
Proof.
  revert j; induction entries as [|e entries IH]; intros j; [done|].
  cbn [fmap list_fmap]. rewrite export_loop_cons. cbn [fst snd].
  rewrite List.filter_app, IH.
  destruct (export_entry_events j e) as (last & -> & Hlast & ->).
  rewrite imap_cons, Nat.add_0_r.
  replace (List.filter is_progress [announced total (processedCount j) e; requested e; last])
    with [announced total (processedCount j) e]
    by (destruct Hlast as [-> | [error ->]]; done).
  simpl. f_equal. apply imap_ext. intros k x _. simpl. f_equal. lia.
Qed.

Lemma export_loop_no_finalization j conversations :
  List.filter is_finalization (snd (fst (export_loop total j conversations))) = [].
Proof.
  revert j; induction conversations as [|[e|] conversations IH]; intros j; [done| |done].
  rewrite export_loop_cons. cbn [fst snd]. rewrite List.filter_app, IH.
  destruct (export_entry_events j e) as (last & -> & Hlast & _).
  destruct Hlast as [-> | [error ->]]; done.
Qed.
End Loop.

(** The trace of an export whose index was fetched: the loop, then the
    archive and the download when there is something to archive. *)
Lemma exportArtifacts_trace env conversations :
  index_answer env = Answered conversations →
  ∃ final,
    snd (exportArtifacts env) =
      FetchIndex ::
        snd (fst (export_loop (length conversations) new_job conversations)) ++ final ∧
    List.filter is_request final = [] ∧ List.filter is_progress final = [].
Proof.
  intros Hindex. unfold exportArtifacts. rewrite Hindex.
  destruct (export_loop (length conversations) new_job conversations)
    as [[j events] [message|]]; cbn [fst snd].
  { exists []. by rewrite List.app_nil_r. }
  destruct (totalArtifacts j =? 0)%nat.
  - exists []. by rewrite List.app_nil_r.
  - destruct (generate_answer env); simpl; eexists; (split; [reflexivity|done]).
Qed.

(** *** A failed fetch and the other entries *)

Lemma export_entry_alike total1 total2 j1 j2 e :
  alike j1 j2 → alike (fst (export_entry total1 j1 e)) (fst (export_entry total2 j2 e)).
Proof.
  intros (Hstore & Htotal & Hwith). unfold export_entry, alike.
  destruct e as [conv [message|fullConv]]; cbn [fst snd job_store totalArtifacts
    conversationsWithArtifacts]; [done|].
  rewrite Hstore.
  destruct (processConversation fullConv (job_store j2)) as [[n|err] st];
    [destruct (0 <? n)%nat|];
    cbn [fst job_store totalArtifacts conversationsWithArtifacts];
    by rewrite ?Htotal, ?Hwith.
Qed.

Lemma export_loop_alike total1 total2 j1 j2 conversations :
  alike j1 j2 →
  alike (fst (fst (export_loop total1 j1 conversations)))
        (fst (fst (export_loop total2 j2 conversations))) ∧
  snd (export_loop total1 j1 conversations) = snd (export_loop total2 j2 conversations).
Proof.
  revert j1 j2; induction conversations as [|[e|] conversations IH]; intros j1 j2 Hj;
    [done| |].
  - rewrite !export_loop_cons. cbn [fst snd]. by apply IH, export_entry_alike.
  - by rewrite !export_loop_null.
Qed.

Lemma exportArtifacts_alike (index1 index2 : list (option entry))
    generated downloaded date :
  let env index :=
    {| index_answer := Answered index;
       generate_answer := generated;
       download_ok := downloaded;
       today := date |} in
  alike (fst (fst (export_loop (length index1) new_job index1)))
        (fst (fst (export_loop (length index2) new_job index2))) →
  snd (export_loop (length index1) new_job index1) =
    snd (export_loop (length index2) new_job index2) →
  length index1 = S (length index2) →
  fst (exportArtifacts (env index1)) =
    one_more_conversation (fst (exportArtifacts (env index2))) ∧
  List.filter is_finalization (snd (exportArtifacts (env index1))) =
  List.filter is_finalization (snd (exportArtifacts (env index2))).
Proof.
  intros env Halike Hthrown Hlength. unfold exportArtifacts, env.
  cbn [index_answer generate_answer download_ok today].
  pose proof (export_loop_no_finalization (length index1) new_job index1) as Hloop1.
  pose proof (export_loop_no_finalization (length index2) new_job index2) as Hloop2.
  rewrite Hlength in *.
  destruct (export_loop (S (length index2)) new_job index1) as [[j1 events1] thrown1].
  destruct (export_loop (length index2) new_job index2) as [[j2 events2] thrown2].
  cbn [fst snd] in *. subst thrown2. destruct Halike as (Hstore & Htotal & Hwith).
  destruct thrown1 as [message|]; cbn [fst snd List.filter is_finalization].
  { by rewrite Hloop1, Hloop2. }
  rewrite Htotal. destruct (totalArtifacts j2 =? 0)%nat;
    cbn [fst snd List.filter is_finalization].
  { by rewrite Hloop1, Hloop2. }
  destruct generated; cbn [fst snd List.filter is_finalization];
    rewrite !List.filter_app, Hloop1, Hloop2, Hstore, ?Hwith;
    (split; [|done]); [done|]. by destruct downloaded.
Qed.

Lemma failed_fetch_changes_nothing (before : list entry) s error
    (after : list (option entry)) generated downloaded date :
  let env index :=
    {| index_answer := Answered index;
       generate_answer := generated;
       download_ok := downloaded;
       today := date |} in
  fst (exportArtifacts (env ((Some <$> before) ++ Some (s, Failed error) :: after))) =
    one_more_conversation (fst (exportArtifacts (env ((Some <$> before) ++ after)))) ∧
  List.filter is_finalization
    (snd (exportArtifacts (env ((Some <$> before) ++ Some (s, Failed error) :: after)))) =
  List.filter is_finalization
    (snd (exportArtifacts (env ((Some <$> before) ++ after)))).
Proof.
  intros env. apply exportArtifacts_alike.
  - rewrite !export_loop_app, export_loop_cons, export_entry_failed.
    cbn [fst snd]. apply export_loop_alike.
    destruct (export_loop_alike
                (length ((Some <$> before) ++ Some (s, Failed error) :: after))
                (length ((Some <$> before) ++ after)) new_job new_job
                (Some <$> before)) as [(Hstore & Htotal & Hwith) _]; [done|].
    unfold alike, skipped; cbn [job_store totalArtifacts conversationsWithArtifacts].
    done.
  - rewrite !export_loop_app, export_loop_cons, export_entry_failed.
    cbn [fst snd]. apply export_loop_alike.
    destruct (export_loop_alike
                (length ((Some <$> before) ++ Some (s, Failed error) :: after))
                (length ((Some <$> before) ++ after)) new_job new_job
                (Some <$> before)) as [(Hstore & Htotal & Hwith) _]; [done|].
    unfold alike, skipped; cbn [job_store totalArtifacts conversationsWithArtifacts].
    done.
  - rewrite !List.length_app. apply Nat.add_succ_r.
Qed.

(** ** The export as a whole *)

(** C10, as the code has it.  When the index is fetched and holds no
    [null], the progress events of the export are one per entry, in the
    order of the index; the [k]-th carries [current = k] and [total] the
    length of the index, whatever the fetch or the processing of the
    entries gives. *)
Theorem progress_events_numbered (conversations : list entry)
    (generated : answer unit) (downloaded : bool) (date : string) :
  List.filter is_progress
    (snd (exportArtifacts
            {| index_answer := Answered (Some <$> conversations);
               generate_answer := generated;
               download_ok := downloaded;
               today := date |})) =
  imap (λ k e, Progress (S k) (length conversations)
                 (or_else (Summary.name (fst e)) "Untitled"))
       conversations.
Proof.
  edestruct exportArtifacts_trace as (final & -> & _ & Hfinal); [reflexivity|].
  cbn [List.filter is_progress]. rewrite List.filter_app, Hfinal, List.app_nil_r.
  by rewrite length_fmap, export_loop_progress.
Qed.

(** C10, as stated, fails: an index whose first element is [null] has two
    elements and no progress event at all, since the error of the first
    iteration ends the export. *)
Lemma null_entry_is_not_announced :
  exportArtifacts
    (environment_on
       [ None;
         Some ({| Summary.uuid := "u2"; Summary.name := Some "two" |},
               Answered (conversation_of (assistant (ContentString tagged_text) None))) ]) =
  (ExportFailed "Cannot read properties of null (reading 'uuid')", [FetchIndex]) ∧
  List.filter is_progress
    (snd (exportArtifacts
       (environment_on
          [ None;
            Some ({| Summary.uuid := "u2"; Summary.name := Some "two" |},
                  Answered (conversation_of
                              (assistant (ContentString tagged_text) None))) ]))) = [] ∧
  length
    [ None;
      Some ({| Summary.uuid := "u2"; Summary.name := Some "two" |},
            Answered (conversation_of (assistant (ContentString tagged_text) None))) ] = 2.
Proof. split; [reflexivity|]. split; reflexivity. Qed.

(** C2, as the code has it.  On an index without [null]: every entry is
    announced by a progress event and then requested, in order; no error
    of a fetch or of a processing ends the loop, which enters every
    iteration; an iteration whose fetch or processing throws logs the
    error and leaves the counters of artifacts as they were, and the loop
    then runs on the remaining entries; an entry whose fetch fails, put
    anywhere in an index, changes nothing to what the export makes of the
    other elements: the same answer, with one conversation more in the
    total, and the same archive.  With three entries of which the
    second cannot be fetched, the export succeeds with the counts of the
    first and the third and archives what these two gave, provided they
    yield at least one artifact and the archive is generated and
    downloaded. *)
Theorem failures_do_not_abort :
  (∀ env (conversations : list entry),
     index_answer env = Answered (Some <$> conversations) →
     List.filter is_request (snd (exportArtifacts env)) =
     concat (imap (λ k e, [announced (length conversations) k e; requested e])
               conversations)) ∧
  (∀ total j (conversations : list entry),
     snd (export_loop total j (Some <$> conversations)) = None ∧
     processedCount (fst (fst (export_loop total j (Some <$> conversations)))) =
       processedCount j + length conversations) ∧
  (∀ total j (e : entry) error st (rest : list (option entry)),
     (snd e = Failed error ∧ st = job_store j) ∨
     (∃ fullConv, snd e = Answered fullConv ∧
                  processConversation fullConv (job_store j) = (Thrown error, st)) →
     export_loop total j (Some e :: rest) =
     (fst (fst (export_loop total (skipped j st) rest)),
      [announced total (processedCount j) e; requested e;
       LogFailure (Summary.uuid (fst e)) error] ++
      snd (fst (export_loop total (skipped j st) rest)),
      snd (export_loop total (skipped j st) rest))) ∧
  (∀ (before : list entry) s error (after : list (option entry))
     generated downloaded date,
     let env index :=
       {| index_answer := Answered index;
          generate_answer := generated;
          download_ok := downloaded;
          today := date |} in
     fst (exportArtifacts (env ((Some <$> before) ++ Some (s, Failed error) :: after))) =
       one_more_conversation (fst (exportArtifacts (env ((Some <$> before) ++ after)))) ∧
     List.filter is_finalization
       (snd (exportArtifacts
               (env ((Some <$> before) ++ Some (s, Failed error) :: after)))) =
     List.filter is_finalization
       (snd (exportArtifacts (env ((Some <$> before) ++ after))))) ∧
  (∀ s1 c1 s2 error s3 c3 n1 st1 n3 st3 date,
     processConversation c1 empty_store = (Returned n1, st1) →
     processConversation c3 st1 = (Returned n3, st3) →
     0 < n1 + n3 →
     exportArtifacts
       {| index_answer :=
            Answered [Some (s1, Answered c1); Some (s2, Failed error);
                      Some (s3, Answered c3)];
          generate_answer := Answered tt;
          download_ok := true;
          today := date |} =
     (ExportSucceeded (n1 + n3)
        ((if (0 <? n1)%nat then 1 else 0) + (if (0 <? n3)%nat then 1 else 0)) 3,
      [ FetchIndex;
        announced 3 0 (s1, Answered c1); requested (s1, Answered c1); Pause 500;
        announced 3 1 (s2, Failed error); requested (s2, Failed error);
        LogFailure (Summary.uuid s2) error;
        announced 3 2 (s3, Answered c3); requested (s3, Answered c3); Pause 500;
        GenerateZip (zip st3);
        Download ("claude-artifacts-" +:+ date +:+ ".zip") ])).
Proof.
  split; [|split; [|split; [|split]]].
  - intros env conversations Hindex.
    destruct (exportArtifacts_trace env _ Hindex) as (final & -> & Hfinal & _).
    cbn [List.filter is_request]. rewrite List.filter_app, Hfinal, List.app_nil_r.
    by rewrite length_fmap, export_loop_requests.
  - intros total j conversations. apply export_loop_completes.
  - intros total j [conv answer] error st rest Hfailed. rewrite export_loop_cons.
    cbn [fst snd] in *.
    destruct Hfailed as [[-> ->]|(fullConv & -> & Hthrown)].
    + by rewrite export_entry_failed.
    + by rewrite (export_entry_thrown _ _ _ _ _ _ Hthrown).
  - intros before s error after generated downloaded date.
    apply failed_fetch_changes_nothing.
  - intros s1 c1 s2 error s3 c3 n1 st1 n3 st3 date H1 H3 Hpos.
    unfold exportArtifacts, announced, requested;
      cbn [index_answer export_loop export_iteration export_entry fst snd
      new_job job_store totalArtifacts conversationsWithArtifacts processedCount].
    fold empty_store. rewrite H1.
    destruct (Nat.ltb_spec 0 n1) as [Hn1|Hn1];
      cbn [job_store totalArtifacts conversationsWithArtifacts processedCount];
      rewrite H3;
      destruct (Nat.ltb_spec 0 n3) as [Hn3|Hn3];
      cbn [job_store totalArtifacts conversationsWithArtifacts processedCount
           generate_answer download_ok today fst snd length app];
      try lia.
    + destruct (Nat.eqb_spec (0 + n1 + n3) 0); [lia|]. simpl. do 2 f_equal; lia.
    + destruct (Nat.eqb_spec (0 + n1) 0); [lia|]. simpl. do 2 f_equal; lia.
    + destruct (Nat.eqb_spec (0 + n3) 0); [lia|]. simpl. do 2 f_equal; lia.
Qed.

Lemma failures_do_not_abort_witness :
  List.filter is_request
    (snd (exportArtifacts
       (environment_of
          [ ({| Summary.uuid := "u1"; Summary.name := Some "one" |},
             Answered (conversation_of (assistant (ContentString tagged_text) None)));
            ({| Summary.uuid := "u2"; Summary.name := None |}, Failed "500");
            ({| Summary.uuid := "u3"; Summary.name := Some "three" |},
             Answered (conversation_of (assistant (ContentString "hello") None))) ]))) =
  [ Progress 1 3 "one"; FetchConversation "u1";
    Progress 2 3 "Untitled"; FetchConversation "u2";
    Progress 3 3 "three"; FetchConversation "u3" ] ∧
  export_loop 3 new_job
    [ Some ({| Summary.uuid := "u1"; Summary.name := Some "one" |},
            Answered {| Conversation.name := Some "One";
                        Conversation.chat_messages :=
                          MessagesArray [Some (assistant (ContentString tagged_text) None);
                                         None] |});
      Some ({| Summary.uuid := "u2"; Summary.name := Some "two" |},
            Answered (conversation_of (assistant (ContentString tagged_text) None))) ] =
  ({| job_store :=
        {| zip := [("One/a.py", "print(1)"); ("Chat/a.py", "print(1)")];
           usedNames := {[ "Chat/a.py" ]} ∪ ({[ "One/a.py" ]} ∪ ∅) |};
      totalArtifacts := 1;
      conversationsWithArtifacts := 1;
      processedCount := 2 |},
   [ Progress 1 3 "one"; FetchConversation "u1";
     LogFailure "u1" "Cannot read properties of null (reading 'sender')";
     Progress 2 3 "two"; FetchConversation "u2"; Pause 500 ],
   None) ∧
  exportArtifacts
    (environment_of
       [ ({| Summary.uuid := "u1"; Summary.name := Some "one" |},
          Answered (conversation_of (assistant (ContentString tagged_text) None)));
         ({| Summary.uuid := "u2"; Summary.name := None |}, Failed "500");
         ({| Summary.uuid := "u3"; Summary.name := Some "three" |},
          Answered (conversation_of (assistant (ContentString "hello") None))) ]) =
  (ExportSucceeded 1 1 3,
   [ FetchIndex;
     Progress 1 3 "one"; FetchConversation "u1"; Pause 500;
     Progress 2 3 "Untitled"; FetchConversation "u2"; LogFailure "u2" "500";
     Progress 3 3 "three"; FetchConversation "u3"; Pause 500;
     GenerateZip [("Chat/a.py", "print(1)")];
     Download "claude-artifacts-2024-01-01.zip" ]).
Proof.
  destruct failures_do_not_abort as (Hrequests & _ & Hfailed & _ & Hscenario).
  split; [|split].
  - exact (Hrequests (environment_of _) _ eq_refl).
  - rewrite (Hfailed 3 new_job
      ({| Summary.uuid := "u1"; Summary.name := Some "one" |},
       Answered {| Conversation.name := Some "One";
                   Conversation.chat_messages :=
                     MessagesArray [Some (assistant (ContentString tagged_text) None);
                                    None] |})
      "Cannot read properties of null (reading 'sender')"
      {| zip := [("One/a.py", "print(1)")]; usedNames := {[ "One/a.py" ]} ∪ ∅ |}).
    + reflexivity.
    + right. eexists. split; reflexivity.
  - exact (Hscenario _ (conversation_of (assistant (ContentString tagged_text) None))
             {| Summary.uuid := "u2"; Summary.name := None |} "500" _
             (conversation_of (assistant (ContentString "hello") None))
             1 _ 0 _ "2024-01-01" eq_refl eq_refl (le_n 1)).
Defined.

(** C2, as stated, fails.  With three entries of which only the second
    cannot be fetched, the export does not succeed when the first and the
    third hold no artifact, nor when the generation of the archive or the
    download fails; and an element of the index that is [null] gets no
    progress event. *)
Lemma partial_failure_can_end_in_failure :
  fst (exportArtifacts
       (environment_of
          [ ({| Summary.uuid := "u1"; Summary.name := Some "one" |},
             Answered (conversation_of (assistant (ContentString "hello") None)));
            ({| Summary.uuid := "u2"; Summary.name := Some "two" |}, Failed "500");
            ({| Summary.uuid := "u3"; Summary.name := Some "three" |},
             Answered (conversation_of (assistant (ContentString "bye") None))) ])) =
  ExportFailed no_artifacts_error ∧
  fst (exportArtifacts
       {| index_answer :=
            Answered
              [ Some ({| Summary.uuid := "u1"; Summary.name := Some "one" |},
                      Answered (conversation_of
                                  (assistant (ContentString tagged_text) None)));
                Some ({| Summary.uuid := "u2"; Summary.name := Some "two" |},
                      Failed "500");
                Some ({| Summary.uuid := "u3"; Summary.name := Some "three" |},
                      Answered (conversation_of
                                  (assistant (ContentString tagged_text) None))) ];
          generate_answer := Failed "out of memory";
          download_ok := true;
          today := "2024-01-01" |}) =
  ExportFailed "out of memory" ∧
  fst (exportArtifacts
       {| index_answer :=
            Answered
              [ Some ({| Summary.uuid := "u1"; Summary.name := Some "one" |},
                      Answered (conversation_of
                                  (assistant (ContentString tagged_text) None)));
                Some ({| Summary.uuid := "u2"; Summary.name := Some "two" |},
                      Failed "500");
                Some ({| Summary.uuid := "u3"; Summary.name := Some "three" |},
                      Answered (conversation_of
                                  (assistant (ContentString tagged_text) None))) ];
          generate_answer := Answered tt;
          download_ok := false;
          today := "2024-01-01" |}) =
  ExportFailed download_error ∧
  exportArtifacts
    (environment_on
       [ Some ({| Summary.uuid := "u1"; Summary.name := Some "one" |},
               Answered (conversation_of (assistant (ContentString tagged_text) None)));
         None;
         Some ({| Summary.uuid := "u3"; Summary.name := Some "three" |},
               Answered (conversation_of
                           (assistant (ContentString tagged_text) None))) ]) =
  (ExportFailed "Cannot read properties of null (reading 'uuid')",
   [ FetchIndex; Progress 1 3 "one"; FetchConversation "u1"; Pause 500 ]).
Proof. split; [reflexivity|]. split; [reflexivity|]. split; reflexivity. Qed.

(** C7.  The iteration of an entry whose fetch fails holds no pause, so
    the loop goes straight to the next entry: in the trace below nothing
    separates the failure of the first entry from the progress event of
    the second, while a pause follows the entry that succeeds. *)
Theorem no_pause_after_failure :
  (∀ total j conv message ms,
     Pause ms ∉ snd (export_entry total j (conv, Failed message))) ∧
  snd (exportArtifacts
       (environment_of
          [ ({| Summary.uuid := "u1"; Summary.name := Some "one" |}, Failed "500");
            ({| Summary.uuid := "u2"; Summary.name := Some "two" |},
             Answered (conversation_of (assistant (ContentString tagged_text) None))) ])) =
  [ FetchIndex;
    Progress 1 2 "one"; FetchConversation "u1"; LogFailure "u1" "500";
    Progress 2 2 "two"; FetchConversation "u2"; Pause 500;
    GenerateZip [("Chat/a.py", "print(1)")];
    Download "claude-artifacts-2024-01-01.zip" ].
Proof.
  split; [|reflexivity].
  intros total j conv message ms. rewrite export_entry_failed. unfold announced.
  cbn [snd]. intros Hin.
  repeat (apply elem_of_cons in Hin as [Hin|Hin]; [discriminate|]).
  by apply elem_of_nil in Hin.
Qed.

(** C8.  When the loop ends after the last element of the index with no
    artifact counted, the export answers with a failure whose message is
    not empty, and the trace holds neither the generation of the archive
    nor a download. *)
Theorem no_artifacts_no_archive (env : environment)
    (conversations : list (option entry)) :
  index_answer env = Answered conversations →
  snd (export_loop (length conversations) new_job conversations) = None →
  totalArtifacts
    (fst (fst (export_loop (length conversations) new_job conversations))) = 0 →
  fst (exportArtifacts env) = ExportFailed no_artifacts_error ∧
  success (fst (exportArtifacts env)) = false ∧
  no_artifacts_error ≠ EmptyString ∧
  List.filter is_finalization (snd (exportArtifacts env)) = [].
Proof.
  intros Hindex Hcompletes Hzero. unfold exportArtifacts. rewrite Hindex.
  pose proof (export_loop_no_finalization (length conversations) new_job conversations) as Hnone.
  destruct (export_loop (length conversations) new_job conversations)
    as [[j events] thrown].
  cbn [fst snd] in *. subst thrown. rewrite Hzero. simpl. by rewrite Hnone.
Qed.

Lemma no_artifacts_no_archive_witness :
  totalArtifacts
    (fst (fst (export_loop 1 new_job
       [ Some ({| Summary.uuid := "u1"; Summary.name := Some "one" |},
               Answered (conversation_of
                           (assistant (ContentString "hello") None))) ]))) = 0 ∧
  fst (exportArtifacts
       (environment_of
          [ ({| Summary.uuid := "u1"; Summary.name := Some "one" |},
             Answered (conversation_of (assistant (ContentString "hello") None))) ])) =
  ExportFailed no_artifacts_error.
Proof.
  split; [reflexivity|].
  exact (proj1 (no_artifacts_no_archive
    (environment_of
       [ ({| Summary.uuid := "u1"; Summary.name := Some "one" |},
          Answered (conversation_of (assistant (ContentString "hello") None))) ])
    [ Some ({| Summary.uuid := "u1"; Summary.name := Some "one" |},
            Answered (conversation_of (assistant (ContentString "hello") None))) ]
    eq_refl eq_refl eq_refl)).
Defined.

(** ** Message shapes *)

(** The three shapes give the same text once [content] is truthy: the
    fragments of a block list are concatenated in order and the [text]
    field is not consulted; the [text] field is used when [content] is
    neither a list nor a string. *)
Lemma messageText_shapes (t1 t2 : string) (legacy : option string) :
  truthy t1 = true → truthy t2 = true →
  messageText (assistant (ContentString (t1 +:+ t2)) legacy) empty_store
    = (Returned (t1 +:+ t2), empty_store) ∧
  messageText (assistant (ContentBlocks [Some (Block (Some t1)); Some (Block None);
                                         Some (Block (Some t2))]) legacy) empty_store
    = (Returned (t1 +:+ t2), empty_store) ∧
  messageText (assistant ContentOther (Some (t1 +:+ t2))) empty_store
    = (Returned (or_else (Some (t1 +:+ t2)) EmptyString), empty_store).
Proof.
  intros H1 H2. split; [done|]. split; [|done].
  unfold messageText, assistant; cbn [Message.content for_of block_text bind ret].
  by rewrite H1, H2.
Qed.

(** C3.  A message that carries its text only in the [text] field, with
    no [content], is skipped whatever the text is: the same tagged text
    gives one archived artifact as a string and as a block list, and none
    as the legacy field. *)
Theorem legacy_text_field_skipped :
  (∀ name t st,
     processConversation
       {| Conversation.name := name;
          Conversation.chat_messages := MessagesArray [Some (assistant ContentAbsent t)] |}
       st = (Returned 0, st)) ∧
  let archived c t :=
    let r := processConversation (conversation_of (assistant c t)) empty_store in
    (fst r, zip (snd r)) in
  archived (ContentString tagged_text) None
    = (Returned 1, [("Chat/a.py", "print(1)")]) ∧
  archived (ContentBlocks [Some (Block (Some tagged_text))]) None
    = (Returned 1, [("Chat/a.py", "print(1)")]) ∧
  archived ContentAbsent (Some tagged_text) = (Returned 0, []).
Proof.
  split; [|repeat split; reflexivity].
  intros name t st. unfold processConversation, assistant.
  cbn [Conversation.chat_messages for_of processMessage Message.sender
       Message.content content_truthy].
  rewrite andb_false_r. reflexivity.
Qed.

(** * Further properties *)

(** ** Trimming *)

Lemma trimStart_begins s : begins_with JS.is_white (JS.trimStart s) = false.
Proof.
  induction s as [|c s IH]; simpl; [done|].
  destruct (JS.is_white c) eqn:Hc; [done|]. simpl. by rewrite Hc.
Qed.

Lemma trimStart_fixed s :
  begins_with JS.is_white s = false → JS.trimStart s = s.
Proof. destruct s as [|c s]; simpl; [done|]. by intros ->. Qed.

Lemma trimEnd_begins s :
  begins_with JS.is_white s = false → begins_with JS.is_white (JS.trimEnd s) = false.
Proof.
  destruct s as [|c s]; simpl; [done|]. intros Hc.
  destruct (JS.trimEnd s); simpl; by rewrite Hc.
Qed.

Lemma trimEnd_idempotent s : JS.trimEnd (JS.trimEnd s) = JS.trimEnd s.
Proof.
  induction s as [|c s IH]; simpl; [done|].
  destruct (JS.trimEnd s) as [|d t] eqn:E.
  - destruct (JS.is_white c) eqn:Hc; simpl; [done|]. by rewrite Hc.
  - change (JS.trimEnd (String c (String d t)))
      with (match JS.trimEnd (String d t) with
            | EmptyString => if JS.is_white c then EmptyString else String c EmptyString
            | t' => String c t'
            end).
    by rewrite IH.
Qed.

Lemma trimEnd_ends s : ends_white (JS.trimEnd s) = false.
Proof.
  induction s as [|c s IH]; simpl; [done|].
  destruct (JS.trimEnd s) as [|d t] eqn:E.
  - destruct (JS.is_white c) eqn:Hc; simpl; [done|]. by rewrite Hc.
  - change (ends_white (String c (String d t))) with (ends_white (String d t)). done.
Qed.

Lemma trim_idempotent s : JS.trim (JS.trim s) = JS.trim s.
Proof.
  unfold JS.trim.
  rewrite (trimStart_fixed (JS.trimEnd _)) by apply trimEnd_begins, trimStart_begins.
  apply trimEnd_idempotent.
Qed.

(** ** More on extraction *)

Lemma extract_loop_matches b text i a :
  a ∈ extract_loop b text i → ∃ m, a = artifact_of_match m.
Proof.
  revert i; induction b as [|b IH]; intros i; simpl.
  - by intros ?%elem_of_nil.
  - destruct (exec artifactRegex text i) as [m|]; [|by intros ?%elem_of_nil].
    intros [->|Hin]%elem_of_cons; [by exists m | by eapply IH].
Qed.

(** X1.  The content of every extracted artifact is trimmed: trimming it
    again changes nothing, and it neither begins nor ends with white
    space. *)
Theorem extracted_content_trimmed (text : string) (a : artifact) :
  a ∈ extractArtifacts text →
  JS.trim (content a) = content a ∧
  begins_with JS.is_white (content a) = false ∧
  ends_white (content a) = false.
Proof.
  intros [m ->]%extract_loop_matches. cbn [content artifact_of_match].
  split; [apply trim_idempotent|]. unfold JS.trim. split.
  - apply trimEnd_begins, trimStart_begins.
  - apply trimEnd_ends.
Qed.

Lemma extracted_content_trimmed_witness :
  extractArtifacts "<antArtifact>  print(1) </antArtifact>" =
    [ {| title := "Untitled"; language := "txt"; content := "print(1)" |} ] ∧
  JS.trim "print(1)" = "print(1)".
Proof.
  split; [reflexivity|].
  exact (proj1 (extracted_content_trimmed
    "<antArtifact>  print(1) </antArtifact>"
    {| title := "Untitled"; language := "txt"; content := "print(1)" |}
    (list_elem_of_here _ _))).
Defined.

Lemma match_at_artifact_open s n caps :
  match_at artifactRegex s = Some (n, caps) → occurs open_tag s.
Proof.
  intros (attrs & body & post & -> & _)%match_at_artifact_inv.
  by exists EmptyString, (attrs +:+ ">" +:+ body +:+ close_tag +:+ post).
Qed.

(** X2.  A text that lacks the opening literal, or lacks the closing tag,
    gives no artifact: an unterminated tag is not matched. *)
Theorem unterminated_tag_gives_nothing (text : string) :
  includes open_tag text = false ∨ includes close_tag text = false →
  extractArtifacts text = [].
Proof.
  intros H. unfold extractArtifacts. cbn [extract_loop].
  rewrite exec_start, search_from_none; [done|].
  intros u v ->. destruct (match_at artifactRegex v) as [[n caps]|] eqn:E; [|done].
  destruct H as [H%not_includes|H%not_includes]; destruct H; apply occurs_app_l.
  - by eapply match_at_artifact_open.
  - by eapply match_at_artifact_occurs.
Qed.

Lemma unterminated_tag_gives_nothing_witness :
  includes close_tag "<antArtifact title=x>print(1)</antArtifact" = false ∧
  extractArtifacts "<antArtifact title=x>print(1)</antArtifact" = [].
Proof.
  split; [reflexivity|].
  exact (unterminated_tag_gives_nothing
           "<antArtifact title=x>print(1)</antArtifact" (or_intror eq_refl)).
Defined.

Lemma drop_app_add u v i : JS.drop (String.length u + i) (u +:+ v) = JS.drop i v.
Proof. induction u as [|c u IH]; simpl; [done | apply IH]. Qed.

Lemma search_from_shift r k i s :
  search_from r (k + i) s = shifted k <$> search_from r i s.
Proof.
  revert i; induction s as [|c s IH]; intros i; cbn [search_from].
  - destruct (match_at r EmptyString) as [m|]; simpl; [|done].
    unfold result_at, shifted; simpl. do 2 f_equal. lia.
  - destruct (match_at r (String c s)) as [m|]; simpl.
    + unfold result_at, shifted; simpl. do 2 f_equal. lia.
    + replace (S (k + i)) with (k + S i) by lia. apply IH.
Qed.

Lemma exec_shift r u v i :
  exec r (u +:+ v) (String.length u + i) = shifted (String.length u) <$> exec r v i.
Proof.
  unfold exec. rewrite length_app, drop_app_add.
  destruct (Nat.leb_spec i (String.length v)) as [Hi|Hi].
  - destruct (Nat.leb_spec (String.length u + i) (String.length u + String.length v));
      [apply search_from_shift | lia].
  - by destruct (Nat.leb_spec (String.length u + i) (String.length u + String.length v));
      [lia|].
Qed.

(** What was scanned before the current position has no influence on
    what the loop still finds. *)
Lemma extract_loop_shift b u v i :
  extract_loop b (u +:+ v) (String.length u + i) = extract_loop b v i.
Proof.
  revert i; induction b as [|b IH]; intros i; cbn [extract_loop]; [done|].
  rewrite exec_shift. destruct (exec artifactRegex v i) as [m|]; simpl; [|done].
  f_equal. apply IH.
Qed.

Lemma extract_first_region (pre attrs body rest : string) :
  includes open_tag pre = false →
  char_in ">" attrs = false →
  includes close_tag body = false →
  let region := open_tag +:+ attrs +:+ ">" +:+ body +:+ close_tag in
  extractArtifacts (pre +:+ region +:+ rest) =
  {| title := attribute titleRegex "Untitled" region;
     language := attribute languageRegex "txt" region;
     content := JS.trim body |} :: extractArtifacts rest.
Proof.
  intros Hpre%not_includes Hattrs Hbody%not_includes region.
  assert (pre +:+ region +:+ rest
          = pre +:+ open_tag +:+ attrs +:+ ">" +:+ body +:+ close_tag +:+ rest) as Htext
    by (unfold region; by rewrite !app_assoc).
  rewrite Htext. unfold extractArtifacts at 1. cbn [extract_loop].
  rewrite exec_start, search_from_skip; last first.
  { intros u v -> Hv. by apply (match_at_artifact_before u). }
  erewrite search_from_here by by apply match_at_artifact_region.
  fold region.
  assert (open_tag +:+ attrs +:+ ">" +:+ body +:+ close_tag +:+ rest
          = region +:+ rest) as Hregion by (unfold region; by rewrite !app_assoc).
  unfold result_at; cbn [fst snd map index whole groups stop]. f_equal.
  - unfold artifact_of_match; cbn [group whole groups lookup list_lookup].
    change (default EmptyString (Some ?x)) with x. rewrite Hregion, take_app.
    replace (region +:+ rest)
      with ((open_tag +:+ attrs +:+ ">") +:+ body +:+ close_tag +:+ rest)
      by (unfold region; by rewrite !app_assoc).
    rewrite drop_app.
    replace (_ + String.length body - _) with (String.length body) by lia.
    by rewrite take_app.
  - rewrite <- Htext.
    replace (pre +:+ region +:+ rest) with ((pre +:+ region) +:+ rest)
      by by rewrite app_assoc.
    replace (0 + String.length pre + String.length region)
      with (String.length (pre +:+ region) + 0) by (rewrite length_app; lia).
    rewrite extract_loop_shift. unfold extractArtifacts.
    apply extract_loop_bound; [|lia].
    rewrite !length_app. unfold region at 1. rewrite length_app. simpl. lia.
Qed.

(** X3.  Extraction goes from left to right and region by region: after
    a text without opening literal, a tag closed by its first closing tag
    gives the first artifact, and the artifacts of the whole text are this
    one followed by those of what comes after the closing tag. *)
Theorem extraction_proceeds_region_by_region (pre attrs body rest : string) :
  includes open_tag pre = false →
  char_in ">" attrs = false →
  includes close_tag body = false →
  let region := open_tag +:+ attrs +:+ ">" +:+ body +:+ close_tag in
  extractArtifacts (pre +:+ region +:+ rest) =
  {| title := attribute titleRegex "Untitled" region;
     language := attribute languageRegex "txt" region;
     content := JS.trim body |} :: extractArtifacts rest.
Proof. apply extract_first_region. Qed.

Lemma extraction_proceeds_region_by_region_witness :
  includes open_tag "one: " = false ∧
  char_in ">" " id=1" = false ∧
  includes close_tag "a" = false ∧
  extractArtifacts
    ("one: " +:+ (open_tag +:+ " id=1" +:+ ">" +:+ "a" +:+ close_tag)
       +:+ " two: <antArtifact>b</antArtifact>") =
  [ {| title := "Untitled"; language := "txt"; content := "a" |};
    {| title := "Untitled"; language := "txt"; content := "b" |} ].
Proof.
  do 3 (split; [reflexivity|]).
  exact (extraction_proceeds_region_by_region "one: " " id=1" "a"
           " two: <antArtifact>b</antArtifact>" eq_refl eq_refl eq_refl).
Defined.

(** The attribute patterns as scans. *)
Lemma match_at_attribute name s :
  match_at (attributeRegex name) s =
  match JS.strip_prefix (attribute_start name) s with
  | Some s' =>
      let n := String.length (attribute_start name) in
      Some (n + String.length (fst (span (not_char dquote) s')),
            [(n, n + String.length (fst (span (not_char dquote) s')))])
  | None => None
  end.
Proof.
  unfold match_at, attributeRegex. cbn [rmatch]. fold (attribute_start name).
  destruct (JS.strip_prefix (attribute_start name) s) as [s'|]; [|done].
  by rewrite (star_greedy_last _ _
                (λ n' _, (n', [(0 + String.length (attribute_start name), n')]))).
Qed.

Lemma search_from_inv r i s m :
  search_from r i s = Some m →
  ∃ j t mt, match_at r t = Some mt ∧ m = result_at j t mt.
Proof.
  revert i; induction s as [|c s IH]; intros i; cbn [search_from].
  - destruct (match_at r EmptyString) as [mt|] eqn:E; [|done].
    intros [= <-]. by exists i, EmptyString, mt.
  - destruct (match_at r (String c s)) as [mt|] eqn:E.
    + intros [= <-]. by exists i, (String c s), mt.
    + apply IH.
Qed.

Lemma span_all (cls : ascii → bool) s : all_chars cls (fst (span cls s)) = true.
Proof.
  induction s as [|c s IH]; simpl; [done|].
  destruct (cls c) eqn:Hc; [|done].
  destruct (span cls s); simpl in *. by rewrite Hc.
Qed.

Lemma not_char_all c s : all_chars (not_char c) s = true → char_in c s = false.
Proof.
  induction s as [|d s IH]; simpl; [done|].
  intros [H1 H2]%andb_true_iff. unfold not_char in H1.
  apply negb_true_iff in H1. rewrite H1. simpl. auto.
Qed.

Lemma attribute_no_quote name fallback s :
  char_in dquote fallback = false →
  char_in dquote (attribute (attributeRegex name) fallback s) = false.
Proof.
  intros Hf. unfold attribute, match_.
  destruct (search_from (attributeRegex name) 0 s) as [m|] eqn:E; [|done].
  apply search_from_inv in E as (j & t & mt & Hmt & ->).
  rewrite match_at_attribute in Hmt.
  destruct (JS.strip_prefix (attribute_start name) t) as [t'|] eqn:Ht; [|done].
  apply strip_prefix_inv in Ht as ->. cbv zeta in Hmt. injection Hmt as <-.
  unfold group, result_at; cbn [groups snd fst map lookup list_lookup].
  simpl default. rewrite drop_app.
  replace (_ + String.length _ - _)
    with (String.length (fst (span (not_char dquote) t'))) by lia.
  rewrite (span_eq (not_char dquote) t') at 2. rewrite take_app.
  apply not_char_all, span_all.
Qed.



Lemma attribute_in_opening_tag name fallback a0 x a1 body :
  first_after (attribute_start name) (open_tag +:+ a0) →
  char_in dquote x = false →
  attribute (attributeRegex name) fallback
    (open_tag +:+ (a0 +:+ attribute_text name x +:+ a1) +:+ ">" +:+ body +:+ close_tag) = x.
Proof.
  intros Hfirst Hx.
  replace (open_tag +:+ (a0 +:+ attribute_text name x +:+ a1) +:+ ">" +:+ body +:+ close_tag)
    with ((open_tag +:+ a0) +:+ attribute_start name +:+ x
          +:+ String dquote (a1 +:+ ">" +:+ body +:+ close_tag)).
  - apply attribute_first; [done..|].
    simpl. unfold not_char. by rewrite Ascii.eqb_refl.
  - unfold attribute_text. rewrite !app_assoc. reflexivity.
Qed.

(** X5.  An attribute of the opening tag wins over the body: when the
    opening tag holds the text of a title attribute with value [x], and
    that text does not start earlier in the tag, the title of the artifact
    is [x] whatever the body holds.  Likewise for the language. *)
Theorem opening_tag_attribute_wins (pre a0 x a1 body rest : string) :
  includes open_tag pre = false →
  includes close_tag body = false →
  char_in dquote x = false →
  (char_in ">" (a0 +:+ attribute_text "title" x +:+ a1) = false →
   first_after (attribute_start "title") (open_tag +:+ a0) →
   title <$> head (extractArtifacts
     (pre +:+ (open_tag +:+ (a0 +:+ attribute_text "title" x +:+ a1) +:+ ">"
               +:+ body +:+ close_tag) +:+ rest)) = Some x)
  ∧
  (char_in ">" (a0 +:+ attribute_text "language" x +:+ a1) = false →
   first_after (attribute_start "language") (open_tag +:+ a0) →
   language <$> head (extractArtifacts
     (pre +:+ (open_tag +:+ (a0 +:+ attribute_text "language" x +:+ a1) +:+ ">"
               +:+ body +:+ close_tag) +:+ rest)) = Some x).
Proof.
  intros Hpre Hbody Hx. split; intros Hattrs Hfirst.
  - rewrite (extract_first_region pre _ body rest Hpre Hattrs Hbody).
    cbn [head fmap option_fmap option_map title]. f_equal.
    by apply attribute_in_opening_tag.
  - rewrite (extract_first_region pre _ body rest Hpre Hattrs Hbody).
    cbn [head fmap option_fmap option_map language]. f_equal.
    by apply attribute_in_opening_tag.
Qed.

Lemma opening_tag_attribute_wins_witness :
  title <$> head (extractArtifacts
    ("<antArtifact " +:+ attribute_text "title" "a.py" +:+ ">"
       +:+ attribute_text "title" "b" +:+ "</antArtifact>")) = Some "a.py" ∧
  language <$> head (extractArtifacts
    ("<antArtifact " +:+ attribute_text "language" "go" +:+ ">"
       +:+ attribute_text "language" "c" +:+ "</antArtifact>")) = Some "go".
Proof.
  split.
  - exact (proj1 (opening_tag_attribute_wins EmptyString " " "a.py" EmptyString
             (attribute_text "title" "b") EmptyString eq_refl eq_refl eq_refl)
             eq_refl eq_refl).
  - exact (proj2 (opening_tag_attribute_wins EmptyString " " "go" EmptyString
             (attribute_text "language" "c") EmptyString eq_refl eq_refl eq_refl)
             eq_refl eq_refl).
Defined.

(** ** More on sanitization *)

Section SanitizeMore.
Variables (keep : ascii → bool).
Hypothesis keep_underscore : keep "_" = true.

Lemma collapse_kept in_run s : all_chars keep (collapse keep in_run s) = true.
Proof.
  revert in_run; induction s as [|c s IH]; intros in_run; simpl; [done|].
  destruct (keep c) eqn:Hc; simpl.
  - by rewrite Hc, IH.
  - destruct in_run; simpl; [apply IH|]. by rewrite keep_underscore, IH.
Qed.

Lemma collapse_fixed in_run s :
  all_chars keep s = true → collapse keep in_run s = s.
Proof.
  revert in_run; induction s as [|c s IH]; intros in_run; simpl; [done|].
  intros [-> Hs]%andb_true_iff. by rewrite IH.
Qed.

Lemma collapse_nonempty s : s ≠ EmptyString → collapse keep false s ≠ EmptyString.
Proof. destruct s as [|c s]; [done|]. intros _. simpl. by destruct (keep c). Qed.
End SanitizeMore.

Lemma all_chars_excludes (cls : ascii → bool) c s :
  all_chars cls s = true → cls c = false → char_in c s = false.
Proof.
  intros Hs Hc. induction s as [|d s IH]; simpl in *; [done|].
  apply andb_true_iff in Hs as [Hd Hs]. rewrite (IH Hs).
  destruct (Ascii.eqb_spec d c) as [->|]; [congruence|done].
Qed.

Lemma conversationFolderOf_collapse name :
  conversationFolderOf name = collapse folder_char false (or_else name "Untitled").
Proof.
  unfold conversationFolderOf, Regex.replace, unsafeFolderRun.
  apply replace_loop_collapse; [done|lia].
Qed.

(** X6.  A sanitized title holds only characters of the class; sanitizing
    is idempotent, and a title that holds only characters of the class is
    left as it is. *)
Theorem sanitized_title_is_safe (t : string) :
  all_chars title_char (sanitizeTitle t) = true ∧
  sanitizeTitle (sanitizeTitle t) = sanitizeTitle t ∧
  (all_chars title_char t = true → sanitizeTitle t = t).
Proof.
  rewrite !sanitizeTitle_collapse.
  assert (all_chars title_char (collapse title_char false t) = true) as Hsafe
    by by apply collapse_kept.
  split; [done|]. split; [by apply collapse_fixed|]. apply collapse_fixed.
Qed.

Lemma sanitized_title_is_safe_witness :
  all_chars title_char "src/app-1.js" = true ∧ sanitizeTitle "src/app-1.js" = "src/app-1.js".
Proof.
  split; [reflexivity|].
  exact (proj2 (proj2 (sanitized_title_is_safe "src/app-1.js")) eq_refl).
Defined.

(** ** More on file names *)

Lemma split_nonempty sep s : JS.split sep s ≠ [].
Proof.
  induction s as [|c s IH]; simpl; [done|].
  destruct (Ascii.eqb c sep); [done|]. by destruct (JS.split sep s).
Qed.

Lemma join_cons sep p q ps :
  JS.join sep (p :: q :: ps) = p +:+ sep +:+ JS.join sep (q :: ps).
Proof. done. Qed.

Lemma join_split s : JS.join "/" (JS.split "/" s) = s.
Proof.
  induction s as [|c s IH]; simpl; [done|].
  pose proof (split_nonempty "/" s) as Hne.
  destruct (Ascii.eqb_spec c "/") as [->|_].
  - destruct (JS.split "/" s) as [|q ps]; [done|]. by rewrite join_cons, IH.
  - destruct (JS.split "/" s) as [|q ps]; [done|].
    destruct ps as [|q' ps].
    + simpl in *. by rewrite IH.
    + rewrite join_cons in *.
      change (String c q +:+ ?x) with (String c (q +:+ x)). by rewrite IH.
Qed.

Lemma pop_join parts :
  1 < length parts →
  JS.join "/" (fst (JS.pop parts)) +:+ "/" +:+ interpolate (snd (JS.pop parts))
  = JS.join "/" parts.
Proof.
  induction parts as [|p parts IH]; [simpl; lia|]. intros Hlen.
  destruct parts as [|q parts]; [simpl in Hlen; lia|].
  destruct parts as [|q' parts].
  - reflexivity.
  - specialize (IH ltac:(simpl; lia)).
    change (JS.pop (p :: q :: q' :: parts))
      with (let '(init, lst) := JS.pop (q :: q' :: parts) in (p :: init, lst)).
    destruct (JS.pop (q :: q' :: parts)) as [init lst] eqn:E. cbn [fst snd] in *.
    rewrite (join_cons _ p q (q' :: parts)), <- IH.
    destruct init as [|i0 init].
    + exfalso. simpl in E. destruct parts; [done|].
      by destruct (JS.pop (_ :: parts)).
    + rewrite join_cons, !app_assoc. reflexivity.
Qed.

Lemma basePath_eq title conversationFolder :
  basePath title conversationFolder =
  conversationFolder +:+ "/" +:+ sanitizeTitle title.
Proof.
  unfold basePath. cbv zeta.
  destruct (Nat.ltb_spec 1 (length (JS.split "/" (sanitizeTitle title)))) as [Hlen|_];
    [|done].
  pose proof (pop_join _ Hlen) as Hjoin. rewrite join_split in Hjoin.
  destruct (JS.pop (JS.split "/" (sanitizeTitle title))) as [parts fileName].
  cbn [fst snd] in Hjoin. by rewrite Hjoin.
Qed.

(** X8.  The treatment of path-like titles changes nothing: with or
    without slashes in the title, the base path is the folder, a slash and
    the sanitized title, so the slashes of a title become directories of
    the archive. *)
Theorem base_path_is_folder_and_title (title conversationFolder : string) :
  basePath title conversationFolder =
  conversationFolder +:+ "/" +:+ sanitizeTitle title.
Proof. apply basePath_eq. Qed.

Lemma probe_first_free used base ext bound f k :
  probe bound used base ext f k ∉ used →
  ((f ∉ used) ∧ probe bound used base ext f k = f) ∨
  (f ∈ used ∧
   ∃ j, probe bound used base ext f k = numbered base (k + N.of_nat j) ext ∧
        ∀ i, i < j → numbered base (k + N.of_nat i) ext ∈ used).
Proof.
  revert f k; induction bound as [|bound IH]; intros f k;
    cbn [probe]; case_bool_decide as Hin; auto.
  intros Hfree. right. split; [done|].
  destruct (IH _ _ Hfree) as [[Hk ->]|[Hk (j & -> & Hbelow)]].
  - exists 0. rewrite N.add_0_r. split; [done|]. intros i Hi. lia.
  - exists (S j). split.
    + f_equal. lia.
    + intros [|i] Hi; [by rewrite N.add_0_r|].
      replace (k + N.of_nat (S i))%N with (k + 1 + N.of_nat i)%N by lia.
      apply Hbelow. lia.
Qed.

Lemma getUniqueFileName_first_free title language used folder :
  let base := folder +:+ "/" +:+ sanitizeTitle title in
  let ext := getFileExtension language in
  let r := fst (getUniqueFileName title language used folder) in
  ((base +:+ ext ∉ used) ∧ r = base +:+ ext) ∨
  (base +:+ ext ∈ used ∧
   ∃ k, (1 ≤ k)%N ∧ r = numbered base k ext ∧
        ∀ i, (1 ≤ i < k)%N → numbered base i ext ∈ used).
Proof.
  intros base ext r.
  pose proof (probe_fresh used base ext) as Hfree.
  unfold r, getUniqueFileName. cbn [fst]. rewrite basePath_eq. fold base ext.
  destruct (probe_first_free _ _ _ _ _ _ Hfree) as [[Hk ->]|[Hk (j & -> & Hbelow)]];
    [by left|].
  right. split; [done|]. exists (1 + N.of_nat j)%N. split; [lia|]. split; [done|].
  intros i Hi. replace i with (1 + N.of_nat (N.to_nat (i - 1)))%N by lia.
  apply Hbelow. lia.
Qed.

(** X9.  The name returned is the first free candidate: the plain name
    (base path and extension) when it is free, otherwise the numbered name
    with the least counter from 1 on that is free, all the candidates
    before it being taken. *)
Theorem allocated_name_is_first_free (title language folder : string)
    (usedNames : gset string) :
  let base := folder +:+ "/" +:+ sanitizeTitle title in
  let ext := getFileExtension language in
  let fileName := fst (getUniqueFileName title language usedNames folder) in
  (base +:+ ext ∉ usedNames → fileName = base +:+ ext) ∧
  (base +:+ ext ∈ usedNames →
   ∃ k, (1 ≤ k)%N ∧ fileName = numbered base k ext ∧
        (numbered base k ext ∉ usedNames) ∧
        ∀ i, (1 ≤ i < k)%N → numbered base i ext ∈ usedNames).
Proof.
  intros base ext fileName. subst base ext fileName.
  pose proof (proj1 (getUniqueFileName_spec title language usedNames folder)) as Hfresh.
  destruct (getUniqueFileName_first_free title language usedNames folder)
    as [[Hplain Hr]|[Hplain (k & Hk & Hr & Hbelow)]].
  - split; [done|]. by intros ?.
  - split; [by intros ?|]. intros _. exists k. rewrite <- Hr. auto.
Qed.

Lemma allocated_name_is_first_free_witness :
  "C/a.py" ∈ ({[ "C/a.py"; "C/a_1.py"; "C/a_3.py" ]} : gset string) ∧
  fst (getUniqueFileName "a" "python" {[ "C/a.py"; "C/a_1.py"; "C/a_3.py" ]} "C")
    = "C/a_2.py".
Proof.
  assert ("C/a.py" ∈ ({[ "C/a.py"; "C/a_1.py"; "C/a_3.py" ]} : gset string)) as Hin
    by (rewrite !elem_of_union, !elem_of_singleton; auto).
  split; [exact Hin|].
  destruct (proj2 (allocated_name_is_first_free "a" "python" "C"
                     {[ "C/a.py"; "C/a_1.py"; "C/a_3.py" ]}) Hin)
    as (k & _ & _ & _ & _).
  reflexivity.
Defined.

Section Repeated.
Variables (title language folder : string).
Let base := folder +:+ "/" +:+ sanitizeTitle title.
Let ext := getFileExtension language.

Lemma allocations_repeated m j (used : gset string) :
  (1 ≤ j)%N →
  base +:+ ext ∈ used →
  (∀ i, (1 ≤ i < j)%N → numbered base i ext ∈ used) →
  (∀ i, (j ≤ i)%N → numbered base i ext ∉ used) →
  fst (allocations (replicate m (title, language, folder)) used) =
  (λ i, numbered base (j + N.of_nat i) ext) <$> seq 0 m.
Proof.
  revert j used; induction m as [|m IH]; intros j used Hj Hplain Hbelow Habove; [done|].
  cbn [replicate allocations].
  pose proof (proj1 (getUniqueFileName_spec title language used folder)) as Hfresh.
  destruct (getUniqueFileName_first_free title language used folder)
    as [[Hno _]|[_ (k & Hk & Hr & Hk_below)]]; [done|].
  fold base ext in Hr, Hk_below.
  assert (k = j) as ->.
  { destruct (N.lt_trichotomy k j) as [Hlt|[->|Hgt]]; [|done|].
    - destruct Hfresh. rewrite Hr. apply Hbelow. lia.
    - destruct (Habove j); [lia|]. apply Hk_below. lia. }
  unfold getUniqueFileName in *. cbn [fst snd] in *.
  set (r := probe _ _ _ _ _ _) in *.
  specialize (IH (j + 1)%N ({[ r ]} ∪ used)).
  destruct (allocations (replicate m (title, language, folder)) ({[ r ]} ∪ used))
    as [fileNames used'].
  cbn [fst] in *. cbn [seq fmap list_fmap]. rewrite N.add_0_r, <- Hr. f_equal.
  rewrite IH.
  - rewrite <- fmap_S_seq, <- list_fmap_compose. apply list_fmap_ext.
    intros _ i _. simpl. f_equal. lia.
  - lia.
  - apply elem_of_union. by right.
  - intros i Hi. apply elem_of_union.
    destruct (N.eq_dec i j) as [->|]; [left; by apply elem_of_singleton|].
    right. apply Hbelow. lia.
  - intros i Hi [Heq%elem_of_singleton|Hin]%elem_of_union.
    + rewrite Hr in Heq. apply numbered_inj in Heq. lia.
    + by apply (Habove i); [lia|].
Qed.
End Repeated.

(** X10.  Repeated titles are numbered in order: in a set that holds
    none of the candidate names, calling with the same title, language and
    folder again and again gives the plain name, then the names numbered
    1, 2, 3 and so on. *)
Theorem repeated_title_is_numbered (title language folder : string)
    (usedNames : gset string) (n : nat) :
  let base := folder +:+ "/" +:+ sanitizeTitle title in
  let ext := getFileExtension language in
  base +:+ ext ∉ usedNames →
  (∀ k, numbered base k ext ∉ usedNames) →
  fst (allocations (replicate (S n) (title, language, folder)) usedNames) =
  (base +:+ ext) :: ((λ i, numbered base (N.of_nat (S i)) ext) <$> seq 0 n).
Proof.
  intros base ext Hplain Hnumbered. cbn [replicate allocations].
  destruct (getUniqueFileName_first_free title language usedNames folder)
    as [[_ Hr]|[Hin _]]; [|done].
  fold base ext in Hr. unfold getUniqueFileName in *. cbn [fst snd] in *.
  set (r := probe _ _ _ _ _ _) in *.
  pose proof (allocations_repeated title language folder n 1 ({[ r ]} ∪ usedNames)) as H.
  destruct (allocations (replicate n (title, language, folder)) ({[ r ]} ∪ usedNames))
    as [fileNames used'].
  cbn [fst] in *. rewrite Hr. f_equal. rewrite H.
  - apply list_fmap_ext. intros _ i _. simpl. f_equal. lia.
  - lia.
  - apply elem_of_union. left. apply elem_of_singleton. by rewrite Hr.
  - intros i Hi. lia.
  - intros i Hi [Heq%elem_of_singleton|Hin]%elem_of_union.
    + rewrite Hr in Heq. by apply numbered_not_plain in Heq.
    + by apply (Hnumbered i).
Qed.

Lemma repeated_title_is_numbered_witness :
  fst (allocations (replicate 3 ("My file", "Python", "Chat")) ∅) =
  ["Chat/My_file.py"; "Chat/My_file_1.py"; "Chat/My_file_2.py"].
Proof.
  exact (repeated_title_is_numbered "My file" "Python" "Chat" ∅ 2
           (not_elem_of_empty _) (λ k, not_elem_of_empty _)).
Defined.

(** ** The archive *)

Lemma extends_refl st : extends st st 0.
Proof.
  split; [done|]. split; [done|]. exists []. rewrite List.app_nil_r.
  split; [done|]. split; [done|]. split; [constructor|]. by intros n ?%elem_of_nil.
Qed.

Lemma extends_trans st1 st2 st3 k1 k2 :
  extends st1 st2 k1 → extends st2 st3 k2 → extends st1 st3 (k1 + k2).
Proof.
  intros (Hc1 & Hu1 & new1 & Hz1 & Hl1 & Hd1 & Hn1) (Hc2 & Hu2 & new2 & Hz2 & Hl2 & Hd2 & Hn2).
  split; [auto|]. split; [by etrans|].
  exists (new1 ++ new2). rewrite Hz2, Hz1, <- List.app_assoc.
  split; [done|]. rewrite List.length_app. split; [lia|].
  rewrite fmap_app. split.
  - apply NoDup_app. split; [done|]. split; [|done].
    intros n [_ Hin]%Hn1 [Hout _]%Hn2. by apply Hout.
  - intros n [[Hout Hin]%Hn1|[Hout Hin]%Hn2]%elem_of_app.
    + split; [done|]. by apply Hu2.
    + split; [|done]. intros Hold. by apply Hout, Hu1.
Qed.

(** Writing one artifact: a fresh name, one more file. *)
Lemma write_artifact_counts folder count a :
  counts count
    (let* fileName := allocate (title a) (language a) folder in
     let* _ := zip_file fileName (content a) in
     ret (S count)).
Proof.
  intros st. unfold bind, allocate, zip_file, ret.
  pose proof (getUniqueFileName_spec (title a) (language a) (usedNames st) folder)
    as [Hfresh Hadd].
  destruct (getUniqueFileName (title a) (language a) (usedNames st) folder)
    as [fileName used].
  cbn [fst snd] in *. subst used. cbn [zip usedNames].
  split; [lia|]. replace (S count - count) with 1 by lia. split; [|split].
  - intros [Hnodup Hin]. split; cbn [zip usedNames].
    + rewrite fmap_app. apply NoDup_app. split; [done|]. split.
      * intros n Hn [->|[]%elem_of_nil]%elem_of_cons. by apply Hfresh, Hin.
      * apply NoDup_singleton.
    + intros n. rewrite fmap_app.
      intros [Hn|[->|[]%elem_of_nil]%elem_of_cons]%elem_of_app; apply elem_of_union.
      * right. by apply Hin.
      * left. by apply elem_of_singleton.
  - cbn [usedNames]. apply union_subseteq_r.
  - exists [(fileName, content a)]. split; [done|]. split; [done|].
    split; [apply NoDup_singleton|].
    intros n [->|[]%elem_of_nil]%elem_of_cons. split; [done|].
    apply elem_of_union. left. by apply elem_of_singleton.
Qed.

Lemma for_of_counts {A} (xs : list A) (body : nat → A → M nat) acc :
  (∀ acc x, counts acc (body acc x)) → counts acc (for_of xs body acc).
Proof.
  intros Hbody. revert acc; induction xs as [|x xs IH]; intros acc st; cbn [for_of].
  - unfold ret. split; [lia|]. rewrite Nat.sub_diag. apply extends_refl.
  - unfold bind. specialize (Hbody acc x st).
    destruct (body acc x st) as [[n|e] st1]; [|done].
    destruct Hbody as [Hn H1]. specialize (IH n st1).
    destruct (for_of xs body n st1) as [[n'|e] st2].
    + destruct IH as [Hn' H2]. split; [lia|].
      replace (n' - acc) with ((n - acc) + (n' - n)) by lia. by eapply extends_trans.
    + destruct IH as [k H2]. eexists. by eapply extends_trans.
Qed.

Lemma for_of_pure {A B} (xs : list A) (body : B → A → M B) acc st :
  (∀ acc x st, snd (body acc x st) = st) → snd (for_of xs body acc st) = st.
Proof.
  intros Hbody. revert acc; induction xs as [|x xs IH]; intros acc; cbn [for_of]; [done|].
  unfold bind. specialize (Hbody acc x st).
  destruct (body acc x st) as [[b|e] st1]; cbn [snd] in *; subst st1; [apply IH|done].
Qed.

(** Computing the text of a message leaves the store alone. *)
Lemma messageText_pure message st : snd (messageText message st) = st.
Proof.
  unfold messageText. destruct (Message.content message) as [|s|blocks|]; try done.
  apply for_of_pure. intros acc [b|] st'; [|done].
  destruct (block_text b) as [t|]; [|done]. by destruct (truthy t).
Qed.

Lemma processMessage_counts folder acc message :
  counts acc (processMessage folder acc message).
Proof.
  intros st. unfold processMessage.
  destruct message as [message|]; [|exists 0; apply extends_refl].
  destruct (_ && _).
  - unfold bind. pose proof (messageText_pure message st) as Hpure.
    destruct (messageText message st) as [[t|e] st1]; cbn [snd] in Hpure; subst st1.
    + destruct (truthy t).
      * apply for_of_counts. intros. apply write_artifact_counts.
      * unfold ret. split; [lia|]. rewrite Nat.sub_diag. apply extends_refl.
    + exists 0. apply extends_refl.
  - unfold ret. split; [lia|]. rewrite Nat.sub_diag. apply extends_refl.
Qed.

Lemma processConversation_counts conversation :
  counts 0 (processConversation conversation).
Proof.
  intros st. unfold processConversation.
  destruct (Conversation.chat_messages conversation) as [|messages|].
  - unfold ret. split; [lia|]. apply extends_refl.
  - apply for_of_counts. intros. apply processMessage_counts.
  - exists 0. apply extends_refl.
Qed.


Lemma consistent_empty : consistent empty_store.
Proof. split; [constructor|]. by intros n ?%elem_of_nil. Qed.


(** *** Files lie in the folder of their conversation *)

Lemma pure_writes_below {A} folder (m : M A) :
  (∀ st, snd (m st) = st) → writes_below folder m.
Proof.
  intros Hpure st. exists []. rewrite Hpure, List.app_nil_r. split; [done|].
  by intros n ?%elem_of_nil.
Qed.

Lemma bind_writes_below {A B} folder (m : M A) (f : A → M B) :
  writes_below folder m → (∀ a, writes_below folder (f a)) →
  writes_below folder (bind m f).
Proof.
  intros Hm Hf st. unfold bind. destruct (Hm st) as (new1 & Hz1 & Hn1).
  destruct (m st) as [[a|e] st1]; cbn [snd] in *; [|by exists new1].
  destruct (Hf a st1) as (new2 & Hz2 & Hn2). exists (new1 ++ new2).
  rewrite Hz2, Hz1, <- List.app_assoc. split; [done|].
  rewrite fmap_app. intros n [Hin|Hin]%elem_of_app; auto.
Qed.

Lemma for_of_writes_below {A B} folder (xs : list A) (body : B → A → M B) acc :
  (∀ acc x, writes_below folder (body acc x)) →
  writes_below folder (for_of xs body acc).
Proof.
  intros Hbody. revert acc; induction xs as [|x xs IH]; intros acc; cbn [for_of].
  - by apply pure_writes_below.
  - apply bind_writes_below; [apply Hbody | apply IH].
Qed.

Lemma write_artifact_below folder count a :
  writes_below folder
    (let* fileName := allocate (title a) (language a) folder in
     let* _ := zip_file fileName (content a) in
     ret (S count)).
Proof.
  intros st. unfold bind, allocate, zip_file, ret.
  pose proof (getUniqueFileName_first_free (title a) (language a) (usedNames st) folder)
    as Hname.
  destruct (getUniqueFileName (title a) (language a) (usedNames st) folder)
    as [fileName used].
  cbn [fst snd zip] in *. exists [(fileName, content a)]. split; [done|].
  intros n [->|[]%elem_of_nil]%elem_of_cons. cbn [fst].
  destruct Hname as [[_ ->]|[_ (k & _ & -> & _)]]; unfold numbered;
    rewrite !app_assoc; eauto.
Qed.

Lemma processMessage_below folder acc message :
  writes_below folder (processMessage folder acc message).
Proof.
  unfold processMessage. destruct message as [message|]; [|by apply pure_writes_below].
  destruct (_ && _); [|by apply pure_writes_below].
  apply bind_writes_below; [apply pure_writes_below, messageText_pure|].
  intros t. destruct (truthy t); [|by apply pure_writes_below].
  apply for_of_writes_below. intros. apply write_artifact_below.
Qed.

Lemma processConversation_below conversation :
  writes_below (conversationFolderOf (Conversation.name conversation))
    (processConversation conversation).
Proof.
  unfold processConversation.
  destruct (Conversation.chat_messages conversation) as [|messages|];
    [by apply pure_writes_below | | by apply pure_writes_below].
  apply for_of_writes_below. intros. apply processMessage_below.
Qed.

(** X7.  The folder of a conversation is one path segment: it is never
    empty, it holds no slash, and all its characters are word characters,
    hyphens, dots or underscores, whatever the name of the conversation
    is (absent, empty or arbitrary text).  Every file that the processing
    of the conversation adds to the archive has a name that starts with
    this folder and a slash, also when the processing throws midway. *)
Theorem conversation_folder_is_one_segment (name : option string) :
  conversationFolderOf name ≠ EmptyString ∧
  char_in "/" (conversationFolderOf name) = false ∧
  all_chars folder_char (conversationFolderOf name) = true ∧
  ∀ conversation st,
    Conversation.name conversation = name →
    ∃ new,
      zip (snd (processConversation conversation st)) = zip st ++ new ∧
      ∀ fileName, fileName ∈ (fst <$> new) →
        ∃ rest, fileName = conversationFolderOf name +:+ "/" +:+ rest.
Proof.
  split; [|split; [|split]].
  - rewrite conversationFolderOf_collapse.
    apply collapse_nonempty. unfold or_else. destruct name as [s|]; [|done].
    destruct (truthy s) eqn:Hs; [|done]. by destruct s.
  - rewrite conversationFolderOf_collapse.
    apply (all_chars_excludes folder_char); [by apply collapse_kept | done].
  - rewrite conversationFolderOf_collapse. by apply collapse_kept.
  - intros conversation st <-. apply processConversation_below.
Qed.

Lemma conversation_folder_is_one_segment_witness :
  conversationFolderOf (Some "a/b: c?") = "a_b_c_" ∧
  zip (snd (processConversation
         {| Conversation.name := Some "a/b: c?";
            Conversation.chat_messages :=
              MessagesArray [Some (assistant (ContentString tagged_text) None);
                             Some (assistant (ContentString tagged_text) None);
                             None] |}
         {| zip := [("x.py", "old")]; usedNames := {[ "x.py" ]} |})) =
  [("x.py", "old"); ("a_b_c_/a.py", "print(1)"); ("a_b_c_/a_1.py", "print(1)")] ∧
  (∃ rest, "a_b_c_/a_1.py" = conversationFolderOf (Some "a/b: c?") +:+ "/" +:+ rest).
Proof.
  split; [reflexivity|]. split; [reflexivity|].
  destruct (proj2 (proj2 (proj2 (conversation_folder_is_one_segment (Some "a/b: c?"))))
              {| Conversation.name := Some "a/b: c?";
                 Conversation.chat_messages :=
                   MessagesArray [Some (assistant (ContentString tagged_text) None);
                                  Some (assistant (ContentString tagged_text) None);
                                  None] |}
              {| zip := [("x.py", "old")]; usedNames := {[ "x.py" ]} |} eq_refl)
    as (new & Hz & Hbelow).
  assert (new = [("a_b_c_/a.py", "print(1)"); ("a_b_c_/a_1.py", "print(1)")]) as ->.
  { apply (List.app_inv_head [("x.py", "old")]).
    refine (eq_trans (eq_sym Hz) _). reflexivity. }
  apply (Hbelow "a_b_c_/a_1.py"), list_elem_of_further, list_elem_of_here.
Defined.

Lemma for_of_other_senders folder (msgs : list Message.t) acc st :
  for_of (Some <$> msgs) (processMessage folder) acc st =
  for_of (Some <$> List.filter is_assistant msgs) (processMessage folder) acc st.
Proof.
  revert acc st; induction msgs as [|m msgs IH]; intros acc st; [done|].
  cbn [fmap list_fmap List.filter for_of].
  destruct (is_assistant m) eqn:Hm.
  - cbn [fmap list_fmap for_of]. unfold bind.
    destruct (processMessage folder acc (Some m) st) as [[n|e] st1]; [apply IH|done].
  - unfold bind at 1. unfold processMessage at 1. unfold is_assistant in Hm.
    rewrite Hm. cbn [andb]. unfold ret at 1. apply IH.
Qed.

(** X12.  Messages of other senders are never scanned: taking every
    message that is not from the assistant out of a conversation changes
    neither the count returned nor the store. *)
Theorem other_senders_are_ignored (name : option string) (msgs : list Message.t)
    (st : store) :
  processConversation
    {| Conversation.name := name;
       Conversation.chat_messages := MessagesArray (Some <$> msgs) |} st =
  processConversation
    {| Conversation.name := name;
       Conversation.chat_messages :=
         MessagesArray (Some <$> List.filter is_assistant msgs) |} st.
Proof. unfold processConversation. cbn [Conversation.chat_messages Conversation.name].
  apply for_of_other_senders.
Qed.

(** ** More on the export *)

Lemma new_job_ok : job_ok new_job.
Proof.
  unfold job_ok, new_job; cbn. split; [apply consistent_empty|]. repeat split; lia.
Qed.

Lemma export_entry_ok total j e : job_ok j → job_ok (fst (export_entry total j e)).
Proof.
  intros (Hc & Htotal & Hwith & Hseen & Hpos). unfold export_entry.
  destruct e as [conv [message|fullConv]]; cbn [fst snd].
  - unfold job_ok; cbn [job_store totalArtifacts conversationsWithArtifacts processedCount].
    split; [done|]. repeat (split; [lia|]). done.
  - pose proof (processConversation_counts fullConv (job_store j)) as H.
    destruct (processConversation fullConv (job_store j)) as [[n|err] st].
    + destruct H as (_ & Hc' & _ & new & Hz & Hl & _).
      destruct (Nat.ltb_spec 0 n); unfold job_ok; cbn [fst job_store totalArtifacts
        conversationsWithArtifacts processedCount]; rewrite Hz, List.length_app;
        (split; [auto|]); repeat (split; [lia|]); lia.
    + destruct H as (k & Hc' & _ & new & Hz & Hl & _).
      unfold job_ok; cbn [fst job_store totalArtifacts conversationsWithArtifacts
        processedCount]; rewrite Hz, List.length_app;
        (split; [auto|]); repeat (split; [lia|]); done.
Qed.

Lemma skipped_ok j : job_ok j → job_ok (skipped j (job_store j)).
Proof.
  intros (Hc & Htotal & Hwith & Hseen & Hpos).
  unfold job_ok, skipped;
    cbn [job_store totalArtifacts conversationsWithArtifacts processedCount].
  split; [done|]. repeat (split; [lia|]). done.
Qed.

Lemma export_loop_ok total j conversations :
  job_ok j → job_ok (fst (fst (export_loop total j conversations))).
Proof.
  revert j; induction conversations as [|[e|] conversations IH]; intros j Hj; [done| |].
  - rewrite export_loop_cons. cbn [fst]. by apply IH, export_entry_ok.
  - rewrite export_loop_null. cbn [fst]. by apply skipped_ok.
Qed.

Lemma export_loop_processed total j conversations :
  processedCount (fst (fst (export_loop total j conversations))) ≤
  processedCount j + length conversations.
Proof.
  revert j; induction conversations as [|[e|] conversations IH]; intros j; [simpl; lia| |].
  - rewrite export_loop_cons. cbn [fst]. etrans; [apply IH|].
    destruct (export_entry_events total j e) as (_ & _ & _ & ->). simpl. lia.
  - rewrite export_loop_null. simpl. lia.
Qed.

Lemma filter_excludes (f : event → bool) e events :
  List.filter f events = [] → e ∈ events → f e = false.
Proof.
  intros Hnone Hin%list_elem_of_In. destruct (f e) eqn:He; [|done].
  assert (List.In e (List.filter f events)) as H by by apply List.filter_In.
  by rewrite Hnone in H.
Qed.

(** X13.  Whenever the export generates an archive, the archive is not
    empty and its file names are pairwise distinct: no artifact overwrites
    another, in one conversation or across conversations. *)
Theorem generated_archive_is_collision_free (env : environment)
    (files : list (string * string)) :
  GenerateZip files ∈ snd (exportArtifacts env) →
  files ≠ [] ∧ NoDup (fst <$> files).
Proof.
  unfold exportArtifacts. destruct (index_answer env) as [message|conversations].
  { intros [[=]|[]%elem_of_nil]%elem_of_cons. }
  pose proof (export_loop_ok (length conversations) new_job conversations new_job_ok)
    as (Hc & Htotal & _).
  pose proof (export_loop_no_finalization (length conversations) new_job conversations)
    as Hnone.
  destruct (export_loop (length conversations) new_job conversations)
    as [[j events] thrown].
  cbn [fst snd] in *.
  assert (GenerateZip files ∈ events → False) as Hloop.
  { intros Hin. by apply (filter_excludes _ _ _ Hnone) in Hin. }
  destruct thrown as [message|].
  { intros [[=]|Hin]%elem_of_cons. by destruct Hloop. }
  destruct (Nat.eqb_spec (totalArtifacts j) 0) as [|Hpos].
  { intros [[=]|Hin]%elem_of_cons. by destruct Hloop. }
  assert (files = zip (job_store j) → files ≠ [] ∧ NoDup (fst <$> files)) as Hfiles.
  { intros ->. split; [|apply Hc]. intros Hnil. rewrite Hnil in Htotal. simpl in Htotal. lia. }
  destruct (generate_answer env); cbn [snd].
  - intros [[=]|[Hin|[[= ->]|[]%elem_of_nil]%elem_of_cons]%elem_of_app]%elem_of_cons;
      [by destruct Hloop | by apply Hfiles].
  - intros [[=]|[Hin|[[= ->]|[[=]|[]%elem_of_nil]%elem_of_cons]%elem_of_cons]%elem_of_app]%elem_of_cons;
      [by destruct Hloop | by apply Hfiles].
Qed.

Lemma generated_archive_is_collision_free_witness :
  [("Chat/a.py", "print(1)"); ("Chat/a_1.py", "print(1)")] ≠ [] ∧
  NoDup (fst <$> [("Chat/a.py", "print(1)"); ("Chat/a_1.py", "print(1)")]).
Proof.
  apply (generated_archive_is_collision_free
    (environment_of
       [ ({| Summary.uuid := "u1"; Summary.name := Some "one" |},
          Answered (conversation_of (assistant (ContentString tagged_text) None)));
         ({| Summary.uuid := "u2"; Summary.name := Some "two" |},
          Answered (conversation_of (assistant (ContentString tagged_text) None))) ])).
  vm_compute. do 7 apply list_elem_of_further. apply list_elem_of_here.
Defined.

(** X14.  A successful answer reports at least one conversation with
    artifacts, no more conversations with artifacts than artifacts or than
    conversations in the index, whose length is [totalConversations]; and
    the trace of such an export ends with the generation of an archive
    that holds at least [artifactCount] files and with the download under
    the dated name. *)
Theorem success_reports_consistent_counts (env : environment) (a c t : nat) :
  fst (exportArtifacts env) = ExportSucceeded a c t →
  1 ≤ c ∧ c ≤ a ∧ c ≤ t ∧
  (∀ conversations, index_answer env = Answered conversations → t = length conversations) ∧
  ∃ events files,
    snd (exportArtifacts env) =
      events ++ [GenerateZip files;
                 Download ("claude-artifacts-" +:+ today env +:+ ".zip")] ∧
    a ≤ length files.
Proof.
  unfold exportArtifacts. destruct (index_answer env) as [message|conversations]; [done|].
  pose proof (export_loop_ok (length conversations) new_job conversations new_job_ok)
    as (Hc & Htotal & Hwith & Hseen & Hpos).
  pose proof (export_loop_processed (length conversations) new_job conversations) as Hcount.
  destruct (export_loop (length conversations) new_job conversations)
    as [[j events] [message|]]; [done|].
  cbn [fst snd] in *.
  destruct (Nat.eqb_spec (totalArtifacts j) 0) as [|Hne]; [done|].
  destruct (generate_answer env); [done|]. cbn [fst snd].
  destruct (download_ok env); [|done]. intros [= <- <- <-].
  simpl in Hcount. split; [lia|]. split; [done|]. split; [lia|].
  split; [by intros ? [= <-]|].
  exists (FetchIndex :: events), (zip (job_store j)). split; [|done].
  by rewrite <- List.app_comm_cons.
Qed.

Lemma success_reports_consistent_counts_witness :
  fst (exportArtifacts
         (environment_of
            [ ({| Summary.uuid := "u1"; Summary.name := Some "one" |},
               Answered (conversation_of (assistant (ContentString tagged_text) None)));
              ({| Summary.uuid := "u2"; Summary.name := None |}, Failed "500") ])) =
    ExportSucceeded 1 1 2 ∧
  1 ≤ 1 ∧ 1 ≤ 1 ∧ 1 ≤ 2.
Proof.
  split; [reflexivity|].
  destruct (success_reports_consistent_counts
    (environment_of
       [ ({| Summary.uuid := "u1"; Summary.name := Some "one" |},
          Answered (conversation_of (assistant (ContentString tagged_text) None)));
         ({| Summary.uuid := "u2"; Summary.name := None |}, Failed "500") ])
    1 1 2 eq_refl) as (H1 & H2 & H3 & _).
  auto.
Defined.

(** The count can be smaller than the archive: files written before a
    throw stay in the archive without being counted. *)
Example uncounted_files_stay :
  exportArtifacts
    (environment_of
       [ ({| Summary.uuid := "u1"; Summary.name := Some "one" |},
          Answered {| Conversation.name := Some "One";
                      Conversation.chat_messages :=
                        MessagesArray [Some (assistant (ContentString tagged_text) None);
                                       None] |});
         ({| Summary.uuid := "u2"; Summary.name := Some "two" |},
          Answered (conversation_of (assistant (ContentString tagged_text) None))) ]) =
  (ExportSucceeded 1 1 2,
   [ FetchIndex;
     Progress 1 2 "one"; FetchConversation "u1";
     LogFailure "u1" "Cannot read properties of null (reading 'sender')";
     Progress 2 2 "two"; FetchConversation "u2"; Pause 500;
     GenerateZip [("One/a.py", "print(1)"); ("Chat/a.py", "print(1)")];
     Download "claude-artifacts-2024-01-01.zip" ]).
Proof. reflexivity. Qed.

Lemma export_loop_logs_failures total j (before : list entry) e after message :
  snd e = Failed message →
  LogFailure (Summary.uuid (fst e)) message ∈
  snd (fst (export_loop total j ((Some <$> before) ++ Some e :: after))).
Proof.
  intros Hfailed. rewrite export_loop_app. cbn [fst snd]. apply elem_of_app. right.
  rewrite export_loop_cons. cbn [fst snd]. apply elem_of_app. left.
  destruct e as [conv answer]. cbn [fst snd] in *. subst answer.
  rewrite export_entry_failed. cbn [snd].
  do 2 apply list_elem_of_further. apply list_elem_of_here.
Qed.

(** X15.  No failed fetch is silent: for every entry of the index that
    the loop reaches (no element before it is [null]) and whose fetch
    fails, the trace of the export holds the logged failure with the
    identifier of that conversation and the error of the fetch, whatever
    the elements before and after it are. *)
Theorem failed_fetches_are_logged (env : environment) (before : list entry)
    (e : entry) (after : list (option entry)) (message : string) :
  index_answer env = Answered ((Some <$> before) ++ Some e :: after) →
  snd e = Failed message →
  LogFailure (Summary.uuid (fst e)) message ∈ snd (exportArtifacts env).
Proof.
  intros Hindex Hfailed.
  destruct (exportArtifacts_trace env _ Hindex) as (final & -> & _).
  apply list_elem_of_further, elem_of_app. left.
  by apply export_loop_logs_failures.
Qed.

Lemma failed_fetches_are_logged_witness :
  LogFailure "u2" "500" ∈
  snd (exportArtifacts
         (environment_on
            [ Some ({| Summary.uuid := "u1"; Summary.name := Some "one" |},
                    Answered (conversation_of
                                (assistant (ContentString tagged_text) None)));
              Some ({| Summary.uuid := "u2"; Summary.name := None |}, Failed "500");
              None ])).
Proof.
  exact (failed_fetches_are_logged (environment_on _)
           [ ({| Summary.uuid := "u1"; Summary.name := Some "one" |},
              Answered (conversation_of (assistant (ContentString tagged_text) None))) ]
           ({| Summary.uuid := "u2"; Summary.name := None |}, Failed "500")
           [None] "500" eq_refl eq_refl).
Defined.

(** ** Base64 *)

Lemma base64_digit_value (v : N) :
  (v < 64)%N →
  base64_value (base64_digit v) = Some v ∧
  Ascii.eqb (base64_digit v) "=" = false ∧
  char_in (base64_digit v) base64_alphabet = true.
Proof.
  intros Hv. replace v with (N.of_nat (N.to_nat v)) by lia.
  assert (N.to_nat v < 64) as Hn by lia. revert Hn. generalize (N.to_nat v) as n.
  intros n Hn. do 64 (destruct n as [|n]; [by vm_compute|]). lia.
Qed.

Ltac euclid := zify; Z.to_euclidean_division_equations; lia.

Lemma byte_ranges_N (x y z : N) :
  (x < 256 → y < 256 → z < 256 →
   x / 4 < 64 ∧ x mod 4 * 16 < 64 ∧ x mod 4 * 16 + y / 16 < 64 ∧
   y mod 16 * 4 < 64 ∧ y mod 16 * 4 + z / 64 < 64 ∧ z mod 64 < 64)%N.
Proof. intros Hx Hy Hz. repeat split; euclid. Qed.

Lemma byte_rebuilt_N (x y z : N) :
  (x < 256 → y < 256 → z < 256 →
   x / 4 * 4 + (x mod 4 * 16) / 16 = x ∧
   x / 4 * 4 + (x mod 4 * 16 + y / 16) / 16 = x ∧
   (x mod 4 * 16 + y / 16) mod 16 * 16 + (y mod 16 * 4) / 4 = y ∧
   (x mod 4 * 16 + y / 16) mod 16 * 16 + (y mod 16 * 4 + z / 64) / 4 = y ∧
   (y mod 16 * 4 + z / 64) mod 4 * 64 + z mod 64 = z)%N.
Proof. intros Hx Hy Hz. repeat split; euclid. Qed.

Lemma byte_ranges (a b c : ascii) :
  let x := N_of_ascii a in
  let y := N_of_ascii b in
  let z := N_of_ascii c in
  (x / 4 < 64 ∧ x mod 4 * 16 < 64 ∧ x mod 4 * 16 + y / 16 < 64 ∧
   y mod 16 * 4 < 64 ∧ y mod 16 * 4 + z / 64 < 64 ∧ z mod 64 < 64)%N.
Proof. apply byte_ranges_N; apply N_ascii_bounded. Qed.

Lemma byte_rebuilt (a b c : ascii) :
  let x := N_of_ascii a in
  let y := N_of_ascii b in
  let z := N_of_ascii c in
  (x / 4 * 4 + (x mod 4 * 16) / 16 = x ∧
   x / 4 * 4 + (x mod 4 * 16 + y / 16) / 16 = x ∧
   (x mod 4 * 16 + y / 16) mod 16 * 16 + (y mod 16 * 4) / 4 = y ∧
   (x mod 4 * 16 + y / 16) mod 16 * 16 + (y mod 16 * 4 + z / 64) / 4 = y ∧
   (y mod 16 * 4 + z / 64) mod 4 * 64 + z mod 64 = z)%N.
Proof. apply byte_rebuilt_N; apply N_ascii_bounded. Qed.

(** Induction on a string three characters at a time. *)
Lemma string_ind3 (P : string → Prop) :
  P EmptyString →
  (∀ a, P (String a EmptyString)) →
  (∀ a b, P (String a (String b EmptyString))) →
  (∀ a b c rest, P rest → P (String a (String b (String c rest)))) →
  ∀ s, P s.
Proof.
  intros H0 H1 H2 H3 s.
  assert (P s ∧ (∀ a, P (String a s)) ∧ ∀ a b, P (String a (String b s))) as [H _].
  { induction s as [|c s (IH0 & IH1 & IH2)]; [by auto|].
    split; [apply IH1|]. split; [intros; apply IH2|]. intros a b. by apply H3. }
  exact H.
Qed.

Lemma atob_btoa binary : atob (btoa binary) = Some binary.
Proof.
  induction binary as [|a|a b|a b c rest IH] using string_ind3; [done|..].
  - destruct (byte_ranges a a a) as (H1 & H2 & _).
    destruct (byte_rebuilt a a a) as (R1 & _).
    cbn [btoa atob]. cbv zeta.
    destruct (base64_digit_value _ H1) as (-> & _).
    destruct (base64_digit_value _ H2) as (-> & _).
    cbn [Ascii.eqb Bool.eqb andb String.eqb]. simpl Ascii.eqb.
    by rewrite R1, ascii_N_embedding.
  - destruct (byte_ranges a b b) as (H1 & _ & H2 & H3 & _).
    destruct (byte_rebuilt a b b) as (_ & R1 & R2 & _).
    cbn [btoa atob]. cbv zeta.
    destruct (base64_digit_value _ H1) as (-> & _).
    destruct (base64_digit_value _ H2) as (-> & _).
    destruct (base64_digit_value _ H3) as (-> & -> & _).
    simpl Ascii.eqb. cbn [String.eqb].
    by rewrite R1, R2, !ascii_N_embedding.
  - destruct (byte_ranges a b c) as (H1 & _ & H2 & _ & H3 & H4).
    destruct (byte_rebuilt a b c) as (_ & R1 & _ & R2 & R3).
    cbn [btoa atob]. cbv zeta.
    destruct (base64_digit_value _ H1) as (-> & _).
    destruct (base64_digit_value _ H2) as (-> & _).
    destruct (base64_digit_value _ H3) as (-> & -> & _).
    destruct (base64_digit_value _ H4) as (-> & -> & _).
    by rewrite IH, R1, R2, R3, !ascii_N_embedding.
Qed.

Lemma binary_of_bytes (bytes : list byte) acc :
  fold_left (λ binary b, binary +:+ String (ascii_of_byte b) EmptyString) bytes acc =
  acc +:+ string_of_list_ascii (ascii_of_byte <$> bytes).
Proof.
  revert acc; induction bytes as [|b bytes IH]; intros acc; cbn [fold_left].
  - simpl. by rewrite app_nil_r.
  - rewrite IH, app_assoc. reflexivity.
Qed.

Lemma btoa_length binary :
  String.length (btoa binary) = 4 * ((String.length binary + 2) / 3).
Proof.
  induction binary as [|a|a b|a b c rest IH] using string_ind3; [done..|].
  cbn [btoa]. cbv zeta. cbn [String.length]. rewrite IH.
  replace (S (S (S (String.length rest))) + 2) with (1 * 3 + (String.length rest + 2)) by lia.
  rewrite Nat.div_add_l by done. lia.
Qed.

Lemma btoa_alphabet binary : all_chars base64_char (btoa binary) = true.
Proof.
  assert (∀ v, (v < 64)%N → base64_char (base64_digit v) = true) as Hdigit.
  { intros v Hv. unfold base64_char.
    by destruct (base64_digit_value v Hv) as (_ & _ & ->). }
  induction binary as [|a|a b|a b c rest IH] using string_ind3; [done|..].
  - destruct (byte_ranges a a a) as (H1 & H2 & _).
    cbn [btoa]. cbv zeta. cbn [all_chars]. by rewrite !Hdigit.
  - destruct (byte_ranges a b b) as (H1 & _ & H2 & H3 & _).
    cbn [btoa]. cbv zeta. cbn [all_chars]. by rewrite !Hdigit.
  - destruct (byte_ranges a b c) as (H1 & _ & H2 & _ & H3 & H4).
    cbn [btoa]. cbv zeta. cbn [all_chars]. by rewrite !Hdigit, IH.
Qed.

Lemma length_string_of_list_ascii (l : list ascii) :
  String.length (string_of_list_ascii l) = length l.
Proof. induction l as [|c l IH]; simpl; [done | by rewrite IH]. Qed.

(** X16.  The base64 text of a buffer of [n] bytes has four characters
    for every three bytes, the last group padded: its length is
    [4 * ceil(n / 3)], and all its characters are base64 digits or equals
    signs. *)
Theorem base64_has_the_expected_shape (bytes : list byte) :
  String.length (arrayBufferToBase64 bytes) = 4 * ((length bytes + 2) / 3) ∧
  all_chars base64_char (arrayBufferToBase64 bytes) = true.
Proof.
  unfold arrayBufferToBase64. cbv zeta. rewrite binary_of_bytes.
  split; [|apply btoa_alphabet].
  rewrite btoa_length. change (EmptyString +:+ ?x) with x.
  by rewrite length_string_of_list_ascii, length_fmap.
Qed.

Lemma bytes_of_chars_inj (l1 l2 : list byte) :
  ascii_of_byte <$> l1 = ascii_of_byte <$> l2 → l1 = l2.
Proof.
  revert l2; induction l1 as [|b1 l1 IH]; intros [|b2 l2]; simpl; try done.
  intros [= Hb Hl]. f_equal; [|by apply IH].
  by rewrite <- (byte_of_ascii_of_byte b1), Hb, byte_of_ascii_of_byte.
Qed.

(** X17.  The base64 text loses nothing: reading it back gives the bytes
    of the buffer, so two buffers with the same text are the same. *)
Theorem base64_loses_nothing (bytes : list byte) :
  atob (arrayBufferToBase64 bytes) =
    Some (string_of_list_ascii (ascii_of_byte <$> bytes)) ∧
  ∀ bytes', arrayBufferToBase64 bytes = arrayBufferToBase64 bytes' → bytes = bytes'.
Proof.
  assert (∀ l, atob (arrayBufferToBase64 l) =
               Some (string_of_list_ascii (ascii_of_byte <$> l))) as Hback.
  { intros l. unfold arrayBufferToBase64. cbv zeta.
    by rewrite binary_of_bytes, atob_btoa. }
  split; [apply Hback|]. intros bytes' Heq.
  pose proof (Hback bytes) as H1. rewrite Heq, Hback in H1. injection H1 as H1.
  apply (f_equal list_ascii_of_string) in H1.
  rewrite !list_ascii_of_string_of_list_ascii in H1.
  symmetry. by apply bytes_of_chars_inj.
Qed.

Lemma base64_loses_nothing_witness :
  arrayBufferToBase64 [x50; x4b; x03; x04] = "UEsDBA==" ∧
  atob "UEsDBA==" = Some (string_of_list_ascii (ascii_of_byte <$> [x50; x4b; x03; x04])).
Proof.
  split; [reflexivity|].
  exact (proj1 (base64_loses_nothing [x50; x4b; x03; x04])).
Defined.

(** ** Extensions and characters of a path *)

Lemma all_chars_app (cls : ascii → bool) s t :
  all_chars cls (s +:+ t) = all_chars cls s && all_chars cls t.
Proof. induction s as [|c s IH]; simpl; [done|]. by rewrite IH, andb_assoc. Qed.

Lemma getFileExtension_safe language :
  inherited_name language = false →
  all_chars title_char (getFileExtension language) = true ∧
  begins_with (Ascii.eqb ".") (getFileExtension language) = true.
Proof.
  unfold inherited_name, getFileExtension. intros [H1 H2]%orb_false_iff.
  generalize dependent (JS.toLowerCase language). intros key H1 H2.
  cbn [property app languageToExt inherited]. rewrite H1, H2.
  repeat match goal with
         | |- context [String.eqb key ?k] => destruct (String.eqb key k); [done|]
         end.
  done.
Qed.

Lemma pretty_N_char_digit x : JS.is_digit (pretty_N_char x) = true.
Proof.
  unfold pretty_N_char. by repeat (case_match; try done).
Qed.

Lemma pretty_N_go_digits x s :
  all_chars JS.is_digit s = true → all_chars JS.is_digit (pretty_N_go x s) = true.
Proof.
  revert s. induction (N.lt_wf_0 x) as [x _ IH]; intros s Hs.
  destruct (decide (x = 0)%N) as [->|Hx]; [by rewrite pretty_N_go_0|].
  rewrite pretty_N_go_step by lia. apply IH.
  - apply N.div_lt; lia.
  - simpl. by rewrite pretty_N_char_digit.
Qed.

Lemma pretty_N_digits (k : N) : all_chars JS.is_digit (pretty k) = true.
Proof.
  unfold pretty, pretty_N. destruct (decide (k = 0)%N); [done|].
  by apply pretty_N_go_digits.
Qed.

Lemma all_chars_weaken (cls cls' : ascii → bool) s :
  (∀ c, cls c = true → cls' c = true) →
  all_chars cls s = true → all_chars cls' s = true.
Proof.
  intros Hcls. induction s as [|c s IH]; simpl; [done|].
  intros [Hc Hs]%andb_true_iff. by rewrite (Hcls c Hc), IH.
Qed.

Lemma digit_is_title_char c : JS.is_digit c = true → title_char c = true.
Proof.
  unfold title_char, JS.is_word. intros ->. by rewrite !orb_true_r.
Qed.

Lemma sanitized_title_chars t : all_chars title_char (sanitizeTitle t) = true.
Proof. rewrite sanitizeTitle_collapse. by apply collapse_kept. Qed.

(** X18.  In a folder made of characters of the class, every allocated
    path is made of characters of the class [A-Za-z0-9_.-/] only, and its
    extension starts with a dot, for every title and every language other
    than the two that reach an inherited property of the table. *)
Theorem allocated_path_is_portable (title language folder : string)
    (usedNames : gset string) :
  all_chars title_char folder = true →
  inherited_name language = false →
  all_chars title_char (fst (getUniqueFileName title language usedNames folder)) = true ∧
  begins_with (Ascii.eqb ".") (getFileExtension language) = true.
Proof.
  intros Hfolder [Hext Hdot]%getFileExtension_safe. split; [|done].
  pose proof (sanitized_title_chars title) as Htitle.
  destruct (getUniqueFileName_first_free title language usedNames folder)
    as [[_ ->]|[_ (k & _ & -> & _)]]; unfold numbered;
    rewrite !all_chars_app, Hfolder, Htitle, Hext; [done|].
  rewrite (all_chars_weaken _ _ _ digit_is_title_char (pretty_N_digits k)). done.
Qed.

Lemma allocated_path_is_portable_witness :
  fst (getUniqueFileName "my file?.py" "Python" {[ "Chat/my_file_.py.py" ]} "Chat")
    = "Chat/my_file_.py_1.py" ∧
  all_chars title_char "Chat/my_file_.py_1.py" = true.
Proof.
  split; [reflexivity|].
  exact (proj1 (allocated_path_is_portable "my file?.py" "Python" "Chat"
                  {[ "Chat/my_file_.py.py" ]} eq_refl eq_refl)).
Defined.

(** The two inherited names give a text that is no extension. *)
Example inherited_property_as_extension :
  fst (getUniqueFileName "a" "Constructor" ∅ "Chat") =
  "Chat/afunction Object() { [native code] }".
Proof. reflexivity. Qed.

(** ** The fetch functions in the export *)

Lemma export_entry_status total j f conv
    (response : answer (http_response Conversation.t)) :
  fst (export_entry total j (conv, fetchConversation (with_status f response))) =
    fst (export_entry total j (conv, fetchConversation response)) ∧
  silenced <$> snd (export_entry total j (conv, fetchConversation (with_status f response))) =
    silenced <$> snd (export_entry total j (conv, fetchConversation response)).
Proof.
  destruct response as [message|[is_ok code body]]; [done|].
  unfold with_status, fetchConversation; cbn [ok status json]. by destruct is_ok.
Qed.

Lemma export_loop_status total j f requests :
  let other := fetched ((λ r, (fst r, with_status f (snd r))) <$> requests) in
  fst (fst (export_loop total j (Some <$> other))) =
    fst (fst (export_loop total j (Some <$> fetched requests))) ∧
  silenced <$> snd (fst (export_loop total j (Some <$> other))) =
    silenced <$> snd (fst (export_loop total j (Some <$> fetched requests))).
Proof.
  revert j; induction requests as [|[conv response] requests IH]; intros j; [done|].
  unfold fetched in *. cbn [fmap list_fmap fst snd] in *. rewrite !export_loop_cons.
  cbn [fst snd].
  destruct (export_entry_status total j f conv response) as [-> Hevents].
  destruct (IH (fst (export_entry total j (conv, fetchConversation response))))
    as [-> Hrest].
  split; [done|]. by rewrite !fmap_app, Hevents, Hrest.
Qed.


(** ** Content blocks *)

Lemma messageText_blocks (blocks : list block) message st :
  Message.content message = ContentBlocks (Some <$> blocks) →
  messageText message st = (Returned (fragments blocks), st).
Proof.
  intros Hcontent. unfold messageText. rewrite Hcontent.
  assert (∀ acc,
    for_of (Some <$> blocks)
      (λ (messageText : string) (content : option block),
         match content with
         | Some b =>
             match block_text b with
             | Some t => if truthy t then ret (messageText +:+ t) else ret messageText
             | None => ret messageText
             end
         | None => throw (null_property_error "text")
         end) acc st = (Returned (acc +:+ fragments blocks), st)) as H.
  { clear Hcontent.
    induction blocks as [|b blocks IH]; intros acc; cbn [fmap list_fmap for_of fragments].
    - unfold ret. by rewrite app_nil_r.
    - unfold bind, or_else. destruct (block_text b) as [t|].
      + destruct (truthy t); unfold ret; rewrite IH;
          [by rewrite app_assoc | reflexivity].
      + unfold ret. rewrite IH. reflexivity. }
  apply (H EmptyString).
Qed.

(** X20.  A list of content blocks stands for the text of its fragments
    put together in order: processing a conversation whose assistant
    message holds the blocks gives the same count and the same store as
    processing it with the joined text as a plain string; the legacy
    [text] field of the message plays no part. *)
Theorem blocks_stand_for_their_joined_text (name : option string)
    (before after : list (option Message.t)) (blocks : list block)
    (legacy : option string) (st : store) :
  processConversation
    {| Conversation.name := name;
       Conversation.chat_messages :=
         MessagesArray
           (before ++ Some (assistant (ContentBlocks (Some <$> blocks)) legacy) :: after) |}
    st =
  processConversation
    {| Conversation.name := name;
       Conversation.chat_messages :=
         MessagesArray
           (before ++ Some (assistant (ContentString (fragments blocks)) None) :: after) |}
    st.
Proof.
  unfold processConversation. cbn [Conversation.chat_messages Conversation.name].
  generalize (Regex.replace unsafeFolderRun "_" (or_else name "Untitled")) as folder.
  intros folder. generalize 0 as acc. revert st.
  induction before as [|m before IH]; intros st acc.
  - cbn [app for_of]. unfold bind.
    assert (processMessage folder acc
              (Some (assistant (ContentBlocks (Some <$> blocks)) legacy)) st =
            processMessage folder acc
              (Some (assistant (ContentString (fragments blocks)) None)) st) as ->;
      [|done].
    assert (∀ c t, String.eqb (Message.sender (assistant c t)) "assistant" = true)
      as Hsender by reflexivity.
    assert (∀ c t, Message.content (assistant c t) = c) as Hcontent by reflexivity.
    unfold processMessage. rewrite !Hsender, !Hcontent. cbn [content_truthy andb].
    unfold bind at 1. rewrite (messageText_blocks blocks) by done.
    destruct (truthy (fragments blocks)) eqn:Ht; [|done].
    unfold bind at 3. unfold messageText. rewrite Hcontent.
    change (ret (fragments blocks) st) with (Returned (fragments blocks), st).
    cbv iota beta. by rewrite Ht.
  - cbn [app for_of]. unfold bind.
    destruct (processMessage folder acc m st) as [[n|e] st1]; [apply IH|done].
Qed.
